(** * cli-calculator: the expression engine of [cli-calculator.py]

    A shallow embedding of [tokenize], [apply_operator] and [evaluate].

    - Input text is a [string] of ASCII characters.
    - A token is a [string], as in the source; the two stacks are lists whose
      head is the top of the Python list (its last element).
    - Operands are Python numbers: IEEE-754 binary64 floats, modelled by the
      kernel's primitive floats, and the complex numbers that [**] can
      return.  [+], [-], [*], [/], [sqrt], [abs] and the comparisons on
      floats are the primitive operations; the routines of the C library
      that the interpreter calls ([math.sin], [**], ...) are the fields of a
      [Runtime].
    - An exception is a value of [exn]; a call returns a [result].
    - The three [while] loops of [evaluate] run on fuel; [evaluate] gives
      each of them one unit per token, and the termination theorem shows
      that this is never exhausted. *)

From Stdlib Require Import ZArith List String Ascii Bool Arith Lia.
From Stdlib Require Import PrimFloat SpecFloat FloatOps.
Import ListNotations.

Local Open Scope string_scope.
Local Open Scope list_scope.

(** ** Exceptions and results *)

(** The exception classes that can leave [evaluate].  Every [raise] of the
    source is a [ValueError] with a message; the other classes are raised by
    the interpreter itself. *)
Inductive exn : Type :=
| ValueError (msg : string)
| ZeroDivisionError
| OverflowError
| TypeError.

Inductive result (A : Type) : Type :=
| Ok (a : A)
| Raise (e : exn).

Arguments Ok {A} a.
Arguments Raise {A} e.

Definition bind {A B : Type} (m : result A) (k : A -> result B) : result B :=
  match m with
  | Ok a => k a
  | Raise e => Raise e
  end.

Notation "x <- m ;; k" := (bind m (fun x => k))
  (at level 61, m at next level, right associativity).

(** A computation that runs on fuel: [None] when the fuel ran out before it
    returned or raised. *)
Definition fueled (A : Type) : Type := option (result A).

Definition bind_fuel {A B : Type} (m : fueled A) (k : A -> fueled B)
    : fueled B :=
  match m with
  | Some (Ok a) => k a
  | Some (Raise e) => Some (Raise e)
  | None => None
  end.

Notation "x <~ m ;; k" := (bind_fuel m (fun x => k))
  (at level 61, m at next level, right associativity).

(** ** Python numbers *)

Inductive value : Type :=
| VFloat (x : float)
| VComplex (re im : float).

(** What the interpreter computes outside IEEE-754's basic operations. *)
Class Runtime : Type := {
  math_sin : float -> result float;
  math_cos : float -> result float;
  math_tan : float -> result float;
  (** [math.log10] and [math.log] at an argument that passed the guard *)
  math_log10 : float -> result float;
  math_log : float -> result float;
  (** [x ** y] on floats: a float, a complex, or an exception *)
  float_pow : float -> float -> result value;
  (** [x % y] on floats, for [y != 0] *)
  float_mod : float -> float -> float;
  (** [+ - * / **] (named by the operator) when an operand is complex *)
  complex_arith : string -> value -> value -> result value;
  (** [abs] of a complex number *)
  complex_abs : float -> float -> result float
}.

(** [float(token)] for a token [d1.d2] or [d]: the float nearest to the
    decimal [n / 10^k], ties to even; [inf] on overflow. *)
Definition decimal_to_float (n : Z) (k : nat) : float :=
  match n with
  | Zpos p =>
      SF2Prim (SFdiv prec emax (S754_finite false p 0)
                 (S754_finite false (Z.to_pos (10 ^ Z.of_nat k)) 0))
  | _ => 0%float
  end.

(** ** Characters and strings *)

Definition is_digit (c : ascii) : bool :=
  ((48 <=? nat_of_ascii c) && (nat_of_ascii c <=? 57))%nat.

Definition digit_value (c : ascii) : Z := Z.of_nat (nat_of_ascii c - 48).

Definition is_upper (c : ascii) : bool :=
  ((65 <=? nat_of_ascii c) && (nat_of_ascii c <=? 90))%nat.

(** [str.lower] *)
Definition lower_char (c : ascii) : ascii :=
  if is_upper c then ascii_of_nat (nat_of_ascii c + 32) else c.

Fixpoint lower (s : string) : string :=
  match s with
  | EmptyString => EmptyString
  | String c s' => String (lower_char c) (lower s')
  end.

(** [expression.replace(" ", "")] *)
Fixpoint remove_spaces (s : string) : string :=
  match s with
  | EmptyString => EmptyString
  | String c s' =>
      if Ascii.eqb c " " then remove_spaces s' else String c (remove_spaces s')
  end.

(** [x in s] for strings [x] and [s]: [x] occurs in [s] as a substring. *)
Fixpoint substring_of (x s : string) : bool :=
  prefix x s ||
  match s with
  | EmptyString => false
  | String _ s' => substring_of x s'
  end.

(** [x in t] for a tuple [t] of strings *)
Definition member (x : string) (t : list string) : bool :=
  existsb (String.eqb x) t.

(** ** The tokenizer *)

(** [\d*]: the longest run of digits at the head of [s], and what follows. *)
Fixpoint digits (s : string) : string * string :=
  match s with
  | EmptyString => (EmptyString, EmptyString)
  | String c s' =>
      if is_digit c
      then let (d, r) := digits s' in (String c d, r)
      else (EmptyString, s)
  end.

Definition is_empty (s : string) : bool :=
  match s with EmptyString => true | _ => false end.

(** [\d*\.\d+]: the text matched and the rest.  The class [\d] excludes
    [.], so giving back digits never lets the pattern proceed: the greedy
    match is the only one. *)
Definition match_decimal (s : string) : option (string * string) :=
  let (d1, r1) := digits s in
  match r1 with
  | String c r2 =>
      if Ascii.eqb c "." then
        let (d2, r3) := digits r2 in
        if is_empty d2 then None else Some ((d1 ++ "." ++ d2)%string, r3)
      else None
  | EmptyString => None
  end.

(** [\d+] *)
Definition match_integer (s : string) : option (string * string) :=
  let (d, r) := digits s in
  if is_empty d then None else Some (d, r).

Definition symbols : string := "-+*/()^%".

Definition is_symbol (c : ascii) : bool := substring_of (String c "") symbols.

(** [[-+*/()^%]] *)
Definition match_symbol (s : string) : option (string * string) :=
  match s with
  | String c r => if is_symbol c then Some (String c "", r) else None
  | EmptyString => None
  end.

Definition functions : list string :=
  ["sin"; "cos"; "tan"; "sqrt"; "log"; "ln"; "abs"].

Definition constants : list string := ["pi"; "e"].

(** A literal alternative of the pattern. *)
Definition match_word (w s : string) : option (string * string) :=
  if prefix w s then Some (w, substring (length w) (length s - length w) s)
  else None.

(** The first alternative that matches, in the order of the pattern. *)
Fixpoint first_match (alts : list (string -> option (string * string)))
    (s : string) : option (string * string) :=
  match alts with
  | [] => None
  | alt :: alts' =>
      match alt s with
      | Some m => Some m
      | None => first_match alts' s
      end
  end.

(** [(\d*\.\d+|\d+|[-+*/()^%]|sin|cos|tan|sqrt|log|ln|abs|pi|e)] *)
Definition pattern : list (string -> option (string * string)) :=
  [match_decimal; match_integer; match_symbol]
  ++ map match_word (functions ++ constants).

(** [re.findall]: scan from the left; where the pattern matches, emit the
    match and resume after it ([skip] counts the characters of the last
    match still to pass); where it does not, move on by one character. *)
Fixpoint findall (s : string) (skip : nat) : list string :=
  match s with
  | EmptyString => []
  | String _ s' =>
      match skip with
      | S skip' => findall s' skip'
      | O =>
          match first_match pattern s with
          | Some (tok, _) => tok :: findall s' (length tok - 1)
          | None => findall s' 0
          end
      end
  end.

Definition tokenize (expression : string) : list string :=
  let expression := remove_spaces expression in
  let tokens := findall expression 0 in
  tokens.

(** ** Numbers in tokens *)

Definition at_end (rest : string) : bool :=
  match rest with
  | EmptyString => true
  | String c EmptyString => Ascii.eqb c "010"
  | _ => false
  end.

(** [re.match(r'^(\d*\.\d+|\d+)$', token)]; [$] matches at the end of the
    token and before a final newline. *)
Definition is_number (token : string) : bool :=
  match match_decimal token with
  | Some (_, rest) => at_end rest
  | None => false
  end
  ||
  match match_integer token with
  | Some (_, rest) => at_end rest
  | None => false
  end.

(** The digits of [s] read in base ten. *)
Fixpoint decimal_value (acc : Z) (s : string) : Z :=
  match s with
  | EmptyString => acc
  | String c s' => decimal_value (10 * acc + digit_value c) s'
  end.

(** [float(token)], for a token accepted by [is_number]. *)
Definition float_of_token (token : string) : float :=
  let (d1, r1) := digits token in
  let d2 :=
    match r1 with
    | String c r2 => if Ascii.eqb c "." then fst (digits r2) else EmptyString
    | EmptyString => EmptyString
    end in
  decimal_to_float (decimal_value 0 (d1 ++ d2)%string) (length d2).

(** ** The engine *)

Section Engine.

Context {R : Runtime}.

(** *** Operations of the interpreter on operands *)

Definition zero : float := 0%float.

(** [value < 0] and [value <= 0] *)
Definition py_lt0 (v : value) : result bool :=
  match v with
  | VFloat x => Ok (PrimFloat.ltb x zero)
  | VComplex _ _ => Raise TypeError
  end.

Definition py_le0 (v : value) : result bool :=
  match v with
  | VFloat x => Ok (PrimFloat.leb x zero)
  | VComplex _ _ => Raise TypeError
  end.

(** [right == 0] *)
Definition py_eq0 (v : value) : bool :=
  match v with
  | VFloat x => PrimFloat.eqb x zero
  | VComplex re im => PrimFloat.eqb re zero && PrimFloat.eqb im zero
  end.

(** A function of the [math] module applied to an operand. *)
Definition math_call (f : float -> result float) (v : value) : result value :=
  match v with
  | VFloat x => r <- f x ;; Ok (VFloat r)
  | VComplex _ _ => Raise TypeError
  end.

(** [math.sqrt], reached only with an argument that is not negative. *)
Definition math_sqrt (x : float) : result float := Ok (PrimFloat.sqrt x).

Definition py_abs (v : value) : result value :=
  match v with
  | VFloat x => Ok (VFloat (PrimFloat.abs x))
  | VComplex re im => r <- complex_abs re im ;; Ok (VFloat r)
  end.

Definition py_add (left right : value) : result value :=
  match left, right with
  | VFloat x, VFloat y => Ok (VFloat (PrimFloat.add x y))
  | _, _ => complex_arith "+" left right
  end.

Definition py_sub (left right : value) : result value :=
  match left, right with
  | VFloat x, VFloat y => Ok (VFloat (PrimFloat.sub x y))
  | _, _ => complex_arith "-" left right
  end.

Definition py_mul (left right : value) : result value :=
  match left, right with
  | VFloat x, VFloat y => Ok (VFloat (PrimFloat.mul x y))
  | _, _ => complex_arith "*" left right
  end.

Definition py_div (left right : value) : result value :=
  match left, right with
  | VFloat x, VFloat y =>
      if PrimFloat.eqb y zero then Raise ZeroDivisionError
      else Ok (VFloat (PrimFloat.div x y))
  | _, _ => complex_arith "/" left right
  end.

Definition py_pow (left right : value) : result value :=
  match left, right with
  | VFloat x, VFloat y => float_pow x y
  | _, _ => complex_arith "**" left right
  end.

(** [left % right]: the interpreter raises [ZeroDivisionError] for a zero
    divisor and [TypeError] for a complex operand. *)
Definition py_mod (left right : value) : result value :=
  match left, right with
  | VFloat x, VFloat y =>
      if PrimFloat.eqb y zero then Raise ZeroDivisionError
      else Ok (VFloat (float_mod x y))
  | _, _ => Raise TypeError
  end.

(** [math.pi] and [math.e] *)
Definition math_pi : float := 0x1.921fb54442d18p+1%float.
Definition math_e : float := 0x1.5bf0a8b145769p+1%float.

(** *** apply_operator *)

(** The operator stack and the operand stack, tops first. *)
Definition stacks : Type := list string * list value.

Definition apply_operator (st : stacks) : result stacks :=
  let (operators, values) := st in
  match operators with
  | [] => Ok st
  | operator :: operators =>
      if operator =? "(" then Ok (operators, values)
      else if member operator functions then
        match values with
        | [] => Raise (ValueError ("Not enough operands for " ++ operator))
        | value :: values =>
            if operator =? "sin" then
              r <- math_call math_sin value ;; Ok (operators, r :: values)
            else if operator =? "cos" then
              r <- math_call math_cos value ;; Ok (operators, r :: values)
            else if operator =? "tan" then
              r <- math_call math_tan value ;; Ok (operators, r :: values)
            else if operator =? "sqrt" then
              negative <- py_lt0 value ;;
              if (negative : bool) then
                Raise (ValueError "Cannot take square root of negative number")
              else r <- math_call math_sqrt value ;; Ok (operators, r :: values)
            else if operator =? "log" then
              non_positive <- py_le0 value ;;
              if (non_positive : bool) then
                Raise (ValueError "Cannot take log of non-positive number")
              else r <- math_call math_log10 value ;; Ok (operators, r :: values)
            else if operator =? "ln" then
              non_positive <- py_le0 value ;;
              if (non_positive : bool) then
                Raise (ValueError "Cannot take natural log of non-positive number")
              else r <- math_call math_log value ;; Ok (operators, r :: values)
            else if operator =? "abs" then
              r <- py_abs value ;; Ok (operators, r :: values)
            else Ok (operators, values)
        end
      else if operator =? "pi" then Ok (operators, VFloat math_pi :: values)
      else if operator =? "e" then Ok (operators, VFloat math_e :: values)
      else
        match values with
        | right_ :: left_ :: values =>
            if operator =? "+" then
              r <- py_add left_ right_ ;; Ok (operators, r :: values)
            else if operator =? "-" then
              r <- py_sub left_ right_ ;; Ok (operators, r :: values)
            else if operator =? "*" then
              r <- py_mul left_ right_ ;; Ok (operators, r :: values)
            else if operator =? "/" then
              if py_eq0 right_ then Raise (ValueError "Division by zero")
              else r <- py_div left_ right_ ;; Ok (operators, r :: values)
            else if operator =? "^" then
              r <- py_pow left_ right_ ;; Ok (operators, r :: values)
            else if operator =? "%" then
              r <- py_mod left_ right_ ;; Ok (operators, r :: values)
            else Ok (operators, values)
        | _ =>
            Raise (ValueError ("Not enough operands for operator: " ++ operator))
        end
  end.

(** What [apply_operator] does to the operands when [operator] is on top. *)
Definition apply_top (operator : string) (values : list value)
    : result (list value) :=
  st <- apply_operator ([operator], values) ;; Ok (snd st).

(** [apply_operator] once for each entry of [pending], from the top. *)
Fixpoint apply_all (pending : list string) (values : list value)
    : result (list value) :=
  match pending with
  | [] => Ok values
  | operator :: pending' =>
      values' <- apply_top operator values ;; apply_all pending' values'
  end.

(** A binary operator applied to [left_] and [right_] alone. *)
Definition binary (operator : string) (left_ right_ : value) : result value :=
  values <- apply_top operator [right_; left_] ;;
  match values with
  | [v] => Ok v
  | _ => Raise (ValueError "Invalid expression")
  end.

(** *** evaluate *)

(** The dictionary [precedence]. *)
Definition precedence : list (string * nat) :=
  [("+", 1); ("-", 1); ("*", 2); ("/", 2); ("^", 3); ("%", 2)].

Fixpoint lookup (key : string) (d : list (string * nat)) : option nat :=
  match d with
  | [] => None
  | (k, v) :: d' => if key =? k then Some v else lookup key d'
  end.

(** [key in precedence] and [precedence.get(key, 0)] *)
Definition in_precedence (key : string) : bool :=
  match lookup key precedence with Some _ => true | None => false end.

Definition precedence_get (key : string) : nat :=
  match lookup key precedence with Some v => v | None => 0 end.

(** [while cond(operators): apply_operator(operators, values)]; one unit of
    fuel per iteration. *)
Fixpoint while_apply (cond : list string -> bool) (fuel : nat) (st : stacks)
    : fueled stacks :=
  if cond (fst st) then
    match fuel with
    | O => None
    | S fuel' =>
        st' <~ Some (apply_operator st) ;; while_apply cond fuel' st'
    end
  else Some (Ok st).

(** [operators and p(operators[-1])] *)
Definition top_is (p : string -> bool) (operators : list string) : bool :=
  match operators with
  | [] => false
  | top :: _ => p top
  end.

(** The conditions of the three loops. *)
Definition until_open_paren : list string -> bool :=
  top_is (fun top => negb (top =? "(")).

Definition outranks (token : string) : list string -> bool :=
  top_is (fun top =>
            negb (top =? "(") && in_precedence top
            && (precedence_get token <=? precedence_get top)%nat).

Definition not_empty : list string -> bool := top_is (fun _ => true).

(** The branch of the [if]/[elif] chain that a token takes. *)
Inductive branch : Type :=
| Number | Name | OpenParen | CloseParen | Operator | Unknown.

Definition token_branch (token : string) : branch :=
  if is_number token then Number
  else if member token (functions ++ constants) then Name
  else if token =? "(" then OpenParen
  else if token =? ")" then CloseParen
  else if substring_of token "+-*/^%" then Operator
  else Unknown.

(** The body of the scanning loop, for one token. *)
Definition step (fuel : nat) (token : string) (st : stacks) : fueled stacks :=
  let (operators, values) := st in
  match token_branch token with
  | Number => Some (Ok (operators, VFloat (float_of_token token) :: values))
  | Name => Some (Ok (token :: operators, values))
  | OpenParen => Some (Ok (token :: operators, values))
  | CloseParen =>
      st1 <~ while_apply until_open_paren fuel st ;;
      let (operators, values) := st1 in
      if top_is (fun top => top =? "(") operators then
        let operators := tl operators in
        if top_is (fun top => member top functions) operators
        then Some (apply_operator (operators, values))
        else Some (Ok (operators, values))
      else Some (Raise (ValueError "Mismatched parentheses"))
  | Operator =>
      st1 <~ while_apply (outranks token) fuel st ;;
      Some (Ok (token :: fst st1, snd st1))
  | Unknown => Some (Raise (ValueError ("Unknown token: " ++ token)))
  end.

(** [while i < len(tokens): ...; i += 1] *)
Fixpoint scan (fuel : nat) (tokens : list string) (st : stacks)
    : fueled stacks :=
  match tokens with
  | [] => Some (Ok st)
  | token :: tokens' => st' <~ step fuel token st ;; scan fuel tokens' st'
  end.

(** [evaluate] from the token list on. *)
Definition evaluate_tokens (fuel : nat) (tokens : list string) : fueled value :=
  st <~ scan fuel tokens ([], []) ;;
  st' <~ while_apply not_empty fuel st ;;
  match snd st' with
  | [v] => Some (Ok v)
  | _ => Some (Raise (ValueError "Invalid expression"))
  end.

Definition evaluate_fuel (fuel : nat) (expression : string) : fueled value :=
  let expression := lower expression in
  let tokens := tokenize expression in
  evaluate_tokens fuel tokens.

Definition evaluate (expression : string) : fueled value :=
  evaluate_fuel (List.length (tokenize (lower expression))) expression.

End Engine.

(** ** A runtime for closed examples *)

Fixpoint pow_nat (x : float) (n : nat) : float :=
  match n with
  | O => 1%float
  | S n' => PrimFloat.mul x (pow_nat x n')
  end.

(** The natural number that a float denotes, if it does. *)
Definition float_to_nat (y : float) : option nat :=
  match Prim2SF y with
  | S754_zero _ => Some O
  | S754_finite false m e =>
      match e with
      | Z0 => Some (Pos.to_nat m)
      | Zpos p => Some (Pos.to_nat m * 2 ^ Pos.to_nat p)%nat
      | Zneg p =>
          let d := (2 ^ Zpos p)%Z in
          if (Zpos m mod d =? 0)%Z then Some (Z.to_nat (Zpos m / d)) else None
      end
  | _ => None
  end.

Definition not_computed (x : float) : result float := Ok nan.

(** The closed examples below are run in this runtime.  None of them
    reaches a trigonometric or logarithmic routine, [%] with a divisor other
    than zero, or complex arithmetic, which it answers with a NaN.  [x ** y]
    for a natural number [y] is computed by repeated multiplication, which
    is exact when every product is, as [2 ** 3] and [8 ** 2] are. *)
Definition test_runtime : Runtime := {|
  math_sin := not_computed;
  math_cos := not_computed;
  math_tan := not_computed;
  math_log10 := not_computed;
  math_log := not_computed;
  float_pow := fun x y =>
    match float_to_nat y with
    | Some n => Ok (VFloat (pow_nat x n))
    | None => Ok (VFloat nan)
    end;
  float_mod := fun _ _ => nan;
  complex_arith := fun _ _ _ => Ok (VComplex nan nan);
  complex_abs := fun _ _ => Ok nan
|}.

(** ** Notions used in the statements *)

(** The characters that occur in some token. *)
Definition token_char (c : ascii) : bool :=
  is_digit c || Ascii.eqb c "." || is_symbol c
  || substring_of (String c "") "sincostansqrtloglnabspie".

(** A character that [tokenize] neither removes nor can put into a token. *)
Definition foreign (c : ascii) : bool :=
  negb (token_char c) && negb (Ascii.eqb c " ").

Fixpoint all_digits (s : string) : bool :=
  match s with
  | EmptyString => true
  | String c s' => is_digit c && all_digits s'
  end.

(** The text of a token does not begin with a sign followed by more. *)
Definition unsigned (token : string) : Prop :=
  forall c rest,
    token = String c rest -> c = "-"%char \/ c = "+"%char -> rest = EmptyString.

(** What follows the digits does not begin with a digit. *)
Definition no_digit_ahead (r : string) : Prop :=
  match r with
  | EmptyString => True
  | String c _ => is_digit c = false
  end.

(** The text matched, without the rest. *)
Definition matched (m : option (string * string)) : option string :=
  option_map fst m.

(** The four kinds of text that the pattern can match. *)
Inductive lexeme (s : string) (tok : string) : Prop :=
| lex_decimal rest : match_decimal s = Some (tok, rest) -> lexeme s tok
| lex_integer rest : match_integer s = Some (tok, rest) -> lexeme s tok
| lex_symbol rest : match_symbol s = Some (tok, rest) -> lexeme s tok
| lex_word : In tok (functions ++ constants) -> prefix tok s = true ->
             lexeme s tok.

(** [c] is a character of [w]. *)
Fixpoint occurs (c : ascii) (w : string) : bool :=
  match w with
  | EmptyString => false
  | String y w' => Ascii.eqb c y || occurs c w'
  end.

(** ** convert_units *)

(** [key in d] and [d[key]] for a dictionary written as the list of its
    items; the keys of each dictionary of the source are distinct. *)
Fixpoint dict_get {A : Type} (key : string) (d : list (string * A))
    : option A :=
  match d with
  | [] => None
  | (k, v) :: d' => if key =? k then Some v else dict_get key d'
  end.

Module Convert.

Local Set Warnings "-inexact-float".
Local Open Scope float_scope.

(** A dictionary of dictionaries of functions. *)
Definition unit_table : Type := list (string * list (string * (float -> float))).

Definition temperature : unit_table :=
  [ ("c", [ ("f", fun x => x * 9 / 5 + 32); ("k", fun x => x + 273.15) ]);
    ("f", [ ("c", fun x => (x - 32) * 5 / 9);
            ("k", fun x => (x - 32) * 5 / 9 + 273.15) ]);
    ("k", [ ("c", fun x => x - 273.15);
            ("f", fun x => (x - 273.15) * 9 / 5 + 32) ]) ]%string.

Definition length : unit_table :=
  [ ("m", [ ("cm", fun x => x * 100); ("km", fun x => x / 1000);
            ("in", fun x => x * 39.3701); ("ft", fun x => x * 3.28084);
            ("mi", fun x => x / 1609.344) ]);
    ("cm", [ ("m", fun x => x / 100); ("km", fun x => x / 100000);
             ("in", fun x => x / 2.54); ("ft", fun x => x / 30.48);
             ("mi", fun x => x / 160934.4) ]);
    ("km", [ ("m", fun x => x * 1000); ("cm", fun x => x * 100000);
             ("in", fun x => x * 39370.1); ("ft", fun x => x * 3280.84);
             ("mi", fun x => x / 1.60934) ]);
    ("in", [ ("m", fun x => x / 39.3701); ("cm", fun x => x * 2.54);
             ("km", fun x => x / 39370.1); ("ft", fun x => x / 12);
             ("mi", fun x => x / 63360) ]);
    ("ft", [ ("m", fun x => x / 3.28084); ("cm", fun x => x * 30.48);
             ("km", fun x => x / 3280.84); ("in", fun x => x * 12);
             ("mi", fun x => x / 5280) ]);
    ("mi", [ ("m", fun x => x * 1609.344); ("cm", fun x => x * 160934.4);
             ("km", fun x => x * 1.60934); ("in", fun x => x * 63360);
             ("ft", fun x => x * 5280) ]) ]%string.

Definition weight : unit_table :=
  [ ("kg", [ ("g", fun x => x * 1000); ("lb", fun x => x * 2.20462);
             ("oz", fun x => x * 35.274) ]);
    ("g", [ ("kg", fun x => x / 1000); ("lb", fun x => x / 453.592);
            ("oz", fun x => x / 28.3495) ]);
    ("lb", [ ("kg", fun x => x / 2.20462); ("g", fun x => x * 453.592);
             ("oz", fun x => x * 16) ]);
    ("oz", [ ("kg", fun x => x / 35.274); ("g", fun x => x * 28.3495);
             ("lb", fun x => x / 16) ]) ]%string.

(** The [for] loop over the three dictionaries: the function of the first
    one that has [from_unit] and, under it, [to_unit]. *)
Fixpoint find_conversion (dicts : list unit_table) (from_unit to_unit : string)
    : option (float -> float) :=
  match dicts with
  | [] => None
  | unit_dict :: dicts' =>
      match dict_get from_unit unit_dict with
      | Some conversions =>
          match dict_get to_unit conversions with
          | Some f => Some f
          | None => find_conversion dicts' from_unit to_unit
          end
      | None => find_conversion dicts' from_unit to_unit
      end
  end.

Definition convert_units (value : float) (from_unit to_unit : string)
    : result float :=
  match find_conversion [temperature; length; weight] from_unit to_unit with
  | Some f => Ok (f value)
  | None =>
      Raise (ValueError
               ("Cannot convert from " ++ from_unit ++ " to " ++ to_unit)%string)
  end.

(** The units of a dictionary, and whether the source has a conversion in
    mind for a pair: two different units of one dictionary. *)
Definition units (t : unit_table) : list string := map fst t.

Definition convertible (from_unit to_unit : string) : bool :=
  negb (from_unit =? to_unit)%string
  && existsb (fun t => member from_unit (units t) && member to_unit (units t))
       [temperature; length; weight].

End Convert.

(** ** More notions used in the statements *)

(** A character that cannot stand inside a token of several characters. *)
Definition ends_token (c : ascii) : bool :=
  negb (is_digit c) && negb (Ascii.eqb c ".")
  && forallb (fun w => negb (occurs c w)) (functions ++ constants).


(** The text of a number: digits, or digits, a point and at least one
    digit. *)
Definition numeral (n : string) : bool :=
  let (d1, r1) := digits n in
  match r1 with
  | EmptyString => negb (is_empty d1)
  | String c r2 =>
      Ascii.eqb c "."
      && let (d2, r3) := digits r2 in negb (is_empty d2) && is_empty r3
  end.

(** The number of characters in a list of tokens. *)
Fixpoint total_length (tokens : list string) : nat :=
  match tokens with
  | [] => O
  | token :: tokens' => String.length token + total_length tokens'
  end.

Section MoreNotions.

Context {R : Runtime}.

(** A function applied to [v] alone. *)
Definition call (f : string) (v : value) : result value :=
  values <- apply_top f [v] ;;
  match values with
  | [r] => Ok r
  | _ => Raise (ValueError "Invalid expression")
  end.

(** What [evaluate] returns once the tokens are scanned: the operator stack
    is applied from the top, and one operand must be left. *)
Definition finish (st : stacks) : result value :=
  values <- apply_all (fst st) (snd st) ;;
  match values with
  | [v] => Ok v
  | _ => Raise (ValueError "Invalid expression")
  end.

End MoreNotions.

(** [math.pi] or [math.e], by the name of the constant. *)
Definition constant_value (c : string) : float :=
  if c =? "pi" then math_pi else math_e.

(** What the operator stack may hold. *)
Definition stack_entry (op : string) : bool :=
  member op (functions ++ constants ++ ["("] ++ map fst precedence).

(** Whether the scan pushes [token] on the operator stack. *)
Definition pushed (token : string) : bool :=
  match token_branch token with
  | Name | OpenParen | Operator => true
  | Number | CloseParen | Unknown => false
  end.
(** The operands that [apply_operator] pops for an entry of the operator
    stack, and the results that it pushes. *)
Definition takes (op : string) : nat :=
  if member op functions then 1
  else if member op constants then 0
  else if op =? "(" then 0
  else 2.

Definition gives (op : string) : nat := if op =? "(" then 0 else 1.

(** ** Expressions, as the precedence rules read them *)

(** The reading of an expression: a number, a constant, a group in
    parentheses, a function of a group, or an operator between two
    expressions. *)
Inductive expr : Type :=
| Num (n : string)
| Const (c : string)
| Paren (e : expr)
| Call (f : string) (e : expr)
| Bin (op : string) (l r : expr).

(** The tokens of an expression, in the order of its text. *)
Fixpoint tokens_of (e : expr) : list string :=
  match e with
  | Num n => [n]
  | Const c => [c]
  | Paren e' => "(" :: tokens_of e' ++ [")"]
  | Call f e' => f :: "(" :: tokens_of e' ++ [")"]
  | Bin op l r => tokens_of l ++ op :: tokens_of r
  end.


(** Whether the tree is the reading of its text by the precedence table.
    An operator at the root ranks [level] or higher; its left operand may
    have operators of the same rank at its root (operators of equal rank go
    from left to right), its right operand only of higher rank.  A group in
    parentheses or the operand of a function starts again at rank 0.
    [last] tells whether the expression is the last thing of its group: a
    constant is admitted there and nowhere else. *)
Fixpoint by_precedence (last : bool) (level : nat) (e : expr) : bool :=
  match e with
  | Num n => numeral n
  | Const c => last && member c constants
  | Paren e' => by_precedence true 0 e'
  | Call f e' => member f functions && by_precedence true 0 e'
  | Bin op l r =>
      in_precedence op && (level <=? precedence_get op)%nat
      && by_precedence false (precedence_get op) l
      && by_precedence last (S (precedence_get op)) r
  end.


Section Reading.

Context {R : Runtime}.

(** The value of the reading: the operands from left to right, then the
    operator. *)
Fixpoint value_of (e : expr) : result value :=
  match e with
  | Num n => Ok (VFloat (float_of_token n))
  | Const c => Ok (VFloat (constant_value c))
  | Paren e' => value_of e'
  | Call f e' => v <- value_of e' ;; call f v
  | Bin op l r => x <- value_of l ;; y <- value_of r ;; binary op x y
  end.

(** *** The loops of [evaluate] without fuel *)

(** [while operators and p(operators[-1]): apply_operator(...)], by
    recursion on the operator stack. *)
Fixpoint apply_while (p : string -> bool) (ops : list string)
    (vals : list value) : result stacks :=
  match ops with
  | [] => Ok ([], vals)
  | top :: rest =>
      if p top then vals' <- apply_top top vals ;; apply_while p rest vals'
      else Ok (ops, vals)
  end.

(** The tests of the three loops on the top entry. *)
Definition not_open_paren (top : string) : bool := negb (top =? "(").

Definition outranking (token top : string) : bool :=
  negb (top =? "(") && in_precedence top
  && (precedence_get token <=? precedence_get top)%nat.

Definition any_entry (top : string) : bool := true.

Definition step_pure (token : string) (st : stacks) : result stacks :=
  let (operators, values) := st in
  match token_branch token with
  | Number => Ok (operators, VFloat (float_of_token token) :: values)
  | Name => Ok (token :: operators, values)
  | OpenParen => Ok (token :: operators, values)
  | CloseParen =>
      st1 <- apply_while not_open_paren operators values ;;
      let (operators, values) := st1 in
      if top_is (fun top => top =? "(") operators then
        let operators := tl operators in
        if top_is (fun top => member top functions) operators
        then apply_operator (operators, values)
        else Ok (operators, values)
      else Raise (ValueError "Mismatched parentheses")
  | Operator =>
      st1 <- apply_while (outranking token) operators values ;;
      Ok (token :: fst st1, snd st1)
  | Unknown => Raise (ValueError ("Unknown token: " ++ token))
  end.

Fixpoint scan_pure (tokens : list string) (st : stacks) : result stacks :=
  match tokens with
  | [] => Ok st
  | token :: tokens' => st' <- step_pure token st ;; scan_pure tokens' st'
  end.

Definition evaluate_pure (tokens : list string) : result value :=
  st <- scan_pure tokens ([], []) ;;
  st' <- apply_while any_entry (fst st) (snd st) ;;
  match snd st' with
  | [v] => Ok v
  | _ => Raise (ValueError "Invalid expression")
  end.

End Reading.

(** An operator stack on which an expression of rank [level] can be
    scanned: its top is an open parenthesis or an operator of lower rank,
    or it is empty. *)
Definition quiet (level : nat) (ops : list string) : bool :=
  match ops with
  | [] => true
  | top :: _ =>
      (top =? "(")
      || (in_precedence top && (precedence_get top <? level)%nat)
  end.

(** What a token adds to the count of operands: a number or a constant is
    one more, a binary operator takes two and gives one. *)
Definition operand_count (token : string) : Z :=
  if is_number token then 1
  else if member token constants then 1
  else if in_precedence token then -1
  else 0.

Fixpoint operands_left (tokens : list string) : Z :=
  match tokens with
  | [] => 0
  | token :: tokens' => operand_count token + operands_left tokens'
  end.

(** * Properties *)

(** ** Strings *)

Lemma append_empty_r (s : string) : (s ++ "")%string = s.
Proof. induction s as [|c s IH]; simpl; [ reflexivity | now rewrite IH ]. Qed.

Lemma append_assoc (a b c : string) :
  ((a ++ b) ++ c)%string = (a ++ (b ++ c))%string.
Proof. induction a as [|x a IH]; simpl; [ reflexivity | now rewrite IH ]. Qed.

Lemma length_append (a b : string) :
  String.length (a ++ b)%string = (String.length a + String.length b)%nat.
Proof. induction a as [|x a IH]; simpl; [ reflexivity | now rewrite IH ]. Qed.

(** Case analysis on a character, by its eight bits. *)
Ltac by_bits c :=
  destruct c as [[] [] [] [] [] [] [] []]; vm_compute; try reflexivity;
  try discriminate; auto.

(** ** The digits at the head of a string *)

Lemma digits_split (s : string) :
  (fst (digits s) ++ snd (digits s))%string = s.
Proof.
  induction s as [|c s IH]; simpl; [ reflexivity | ].
  destruct (is_digit c); [ | reflexivity ].
  destruct (digits s) as [d r]; simpl in *. now rewrite IH.
Qed.

Lemma digits_all_digits (s : string) : all_digits (fst (digits s)) = true.
Proof.
  induction s as [|c s IH]; simpl; [ reflexivity | ].
  destruct (is_digit c) eqn:E; [ | reflexivity ].
  destruct (digits s) as [d r]; simpl in *. now rewrite E, IH.
Qed.

Lemma digits_rest (s : string) : no_digit_ahead (snd (digits s)).
Proof.
  induction s as [|c s IH]; simpl; [ exact I | ].
  destruct (is_digit c) eqn:E; [ | exact E ].
  destruct (digits s) as [d r]; simpl in *. exact IH.
Qed.

Lemma digits_append (d r : string) :
  all_digits d = true -> no_digit_ahead r -> digits (d ++ r) = (d, r).
Proof.
  induction d as [|c d IH]; simpl; intros Hd Hr.
  - destruct r as [|c r]; simpl in *; [ reflexivity | now rewrite Hr ].
  - apply andb_true_iff in Hd as [Hc Hd]. rewrite Hc, (IH Hd Hr). reflexivity.
Qed.

Lemma digits_of_digits (d : string) :
  all_digits d = true -> digits d = (d, EmptyString).
Proof.
  intros Hd. rewrite <- (append_empty_r d) at 1.
  apply digits_append; [ exact Hd | exact I ].
Qed.

(** ** The shape of a match *)

Lemma match_decimal_shape (s tok rest : string) :
  match_decimal s = Some (tok, rest) ->
  exists d1 d2,
    tok = (d1 ++ "." ++ d2)%string /\ all_digits d1 = true
    /\ all_digits d2 = true /\ d2 <> EmptyString
    /\ s = (tok ++ rest)%string /\ no_digit_ahead rest.
Proof.
  unfold match_decimal. intros H.
  pose proof (digits_split s) as Hs. pose proof (digits_all_digits s) as Hd1.
  destruct (digits s) as [d1 r1]; simpl in *.
  destruct r1 as [|c r2]; [ discriminate | ].
  destruct (Ascii.eqb_spec c ".") as [->|Hc]; [ | discriminate ].
  pose proof (digits_split r2) as Hr. pose proof (digits_all_digits r2) as Hd2.
  pose proof (digits_rest r2) as Hn.
  destruct (digits r2) as [d2 r3]; simpl in *.
  destruct d2 as [|x d2]; simpl in H; [ discriminate | ].
  injection H as <- <-. exists d1, (String x d2).
  repeat split; auto; [ discriminate | ].
  rewrite <- Hs, <- Hr. rewrite append_assoc. simpl. reflexivity.
Qed.

Lemma match_integer_shape (s tok rest : string) :
  match_integer s = Some (tok, rest) ->
  all_digits tok = true /\ tok <> EmptyString
  /\ s = (tok ++ rest)%string /\ no_digit_ahead rest.
Proof.
  unfold match_integer. intros H.
  pose proof (digits_split s) as Hs. pose proof (digits_all_digits s) as Hd.
  pose proof (digits_rest s) as Hn.
  destruct (digits s) as [d r]; simpl in *.
  destruct d as [|x d]; simpl in H; [ discriminate | ].
  injection H as <- <-. repeat split; auto. discriminate.
Qed.

Lemma match_symbol_shape (s tok rest : string) :
  match_symbol s = Some (tok, rest) ->
  exists c, tok = String c EmptyString /\ is_symbol c = true
            /\ s = String c rest.
Proof.
  destruct s as [|c r]; simpl; [ discriminate | ].
  destruct (is_symbol c) eqn:E; [ | discriminate ].
  intros H; injection H as <- <-. now exists c.
Qed.

Lemma match_word_shape (w s tok rest : string) :
  match_word w s = Some (tok, rest) -> tok = w /\ prefix w s = true.
Proof.
  unfold match_word. destruct (prefix w s); [ | discriminate ].
  intros H; injection H as <- <-. auto.
Qed.

Lemma first_match_words (ws : list string) (s tok rest : string) :
  first_match (map match_word ws) s = Some (tok, rest) ->
  In tok ws /\ prefix tok s = true.
Proof.
  induction ws as [|w ws IH]; simpl; [ discriminate | ].
  destruct (match_word w s) as [[t r]|] eqn:E.
  - intros H; injection H as <- <-.
    apply match_word_shape in E as [-> E]. auto.
  - intros H. destruct (IH H). auto.
Qed.

Lemma first_match_cons alt alts (s : string) :
  first_match (alt :: alts) s =
  match alt s with Some m => Some m | None => first_match alts s end.
Proof. reflexivity. Qed.

Lemma first_match_pattern (s : string) :
  first_match pattern s =
  match match_decimal s with
  | Some m => Some m
  | None =>
      match match_integer s with
      | Some m => Some m
      | None =>
          match match_symbol s with
          | Some m => Some m
          | None => first_match (map match_word (functions ++ constants)) s
          end
      end
  end.
Proof. reflexivity. Qed.

Lemma first_match_lexeme (s tok rest : string) :
  first_match pattern s = Some (tok, rest) -> lexeme s tok.
Proof.
  rewrite first_match_pattern.
  destruct (match_decimal s) as [[t r]|] eqn:E1.
  { intros H; injection H as <- <-. eapply lex_decimal; eassumption. }
  destruct (match_integer s) as [[t r]|] eqn:E2.
  { intros H; injection H as <- <-. eapply lex_integer; eassumption. }
  destruct (match_symbol s) as [[t r]|] eqn:E3.
  { intros H; injection H as <- <-. eapply lex_symbol; eassumption. }
  intros H. apply first_match_words in H as [Hin Hp]. now apply lex_word.
Qed.

Lemma findall_here (c : ascii) (s : string) :
  findall (String c s) 0 =
  match first_match pattern (String c s) with
  | Some (tok, _) => tok :: findall s (String.length tok - 1)
  | None => findall s 0
  end.
Proof. reflexivity. Qed.

Lemma findall_skip (c : ascii) (s : string) (skip : nat) :
  findall (String c s) (S skip) = findall s skip.
Proof. reflexivity. Qed.

(** Everything [findall] returns was matched somewhere. *)
Lemma findall_lexemes (P : string -> Prop) :
  (forall s tok, lexeme s tok -> P tok) ->
  forall s skip, Forall P (findall s skip).
Proof.
  intros HP. induction s as [|c s IH]; intros skip; [ constructor | ].
  destruct skip as [|skip]; [ | rewrite findall_skip; apply IH ].
  rewrite findall_here.
  destruct (first_match pattern (String c s)) as [[tok rest]|] eqn:E.
  - constructor; [ | apply IH ].
    eapply HP, first_match_lexeme, E.
  - apply IH.
Qed.

(** ** Tokens and the branches of the evaluator *)

Lemma is_number_decimal (d1 d2 : string) :
  all_digits d1 = true -> all_digits d2 = true -> d2 <> EmptyString ->
  is_number (d1 ++ "." ++ d2) = true.
Proof.
  intros H1 H2 Hne. unfold is_number, match_decimal.
  rewrite (digits_append d1 ("." ++ d2)) by (auto; reflexivity).
  simpl. rewrite (digits_of_digits d2 H2).
  destruct d2; [ congruence | reflexivity ].
Qed.

Lemma is_number_integer (d : string) :
  all_digits d = true -> d <> EmptyString -> is_number d = true.
Proof.
  intros H Hne. unfold is_number, match_integer.
  rewrite (digits_of_digits d H).
  destruct d; [ congruence | ]. simpl. apply orb_true_r.
Qed.

Lemma is_symbol_cases (c : ascii) :
  is_symbol c = true ->
  In (String c EmptyString) ["-"; "+"; "*"; "/"; "("; ")"; "^"; "%"].
Proof. by_bits c; simpl; tauto. Qed.

Lemma lexeme_branch (s tok : string) :
  lexeme s tok -> token_branch tok <> Unknown.
Proof.
  intros [rest H|rest H|rest H|Hin _].
  - apply match_decimal_shape in H as (d1 & d2 & -> & H1 & H2 & Hne & _).
    unfold token_branch. now rewrite is_number_decimal.
  - apply match_integer_shape in H as (Hd & Hne & _).
    unfold token_branch. now rewrite is_number_integer.
  - apply match_symbol_shape in H as (c & -> & Hc & _).
    apply is_symbol_cases in Hc. simpl in Hc.
    repeat (destruct Hc as [<-|Hc]; [ discriminate | ]). contradiction.
  - simpl in Hin.
    repeat (destruct Hin as [<-|Hin]; [ discriminate | ]). contradiction.
Qed.

Lemma all_digits_head (c : ascii) (s : string) :
  all_digits (String c s) = true -> c <> "-"%char /\ c <> "+"%char.
Proof.
  simpl. intros H. apply andb_true_iff in H as [H _].
  split; intros ->; discriminate.
Qed.

Lemma lexeme_unsigned (s tok : string) : lexeme s tok -> unsigned tok.
Proof.
  intros [rest H|rest H|rest H|Hin _] c r Htok Hc.
  - apply match_decimal_shape in H as (d1 & d2 & -> & H1 & H2 & Hne & _).
    exfalso. destruct d1 as [|x d1]; simpl in Htok.
    + injection Htok as <- _. destruct Hc; discriminate.
    + injection Htok as <- _. apply all_digits_head in H1. tauto.
  - apply match_integer_shape in H as (Hd & Hne & _). subst tok.
    exfalso. apply all_digits_head in Hd. tauto.
  - apply match_symbol_shape in H as (x & -> & _). now injection Htok.
  - exfalso. simpl in Hin.
    repeat (destruct Hin as [<-|Hin];
            [ injection Htok as <- _; destruct Hc; discriminate | ]).
    contradiction.
Qed.

(** ** A match is a prefix of the text *)

Lemma prefix_length (w s : string) :
  prefix w s = true -> (String.length w <= String.length s)%nat.
Proof.
  revert s. induction w as [|x w IH]; intros [|y s]; simpl; try lia;
    try discriminate.
  destruct (ascii_dec x y); [ | discriminate ].
  intros H. apply IH in H. lia.
Qed.

Lemma lexeme_length (s tok : string) :
  lexeme s tok -> (String.length tok <= String.length s)%nat.
Proof.
  intros [rest H|rest H|rest H|_ Hp].
  - apply match_decimal_shape in H as (d1 & d2 & _ & _ & _ & _ & -> & _).
    rewrite length_append. lia.
  - apply match_integer_shape in H as (_ & _ & -> & _).
    rewrite length_append. lia.
  - apply match_symbol_shape in H as (c & -> & _ & ->). simpl. lia.
  - now apply prefix_length.
Qed.

(** ** A foreign character ends every match before it *)

Section Foreign.

Variable c : ascii.
Hypothesis c_foreign : foreign c = true.
Variable b : string.

Local Abbreviation tail := (String c b).

Lemma foreign_not_digit : is_digit c = false.
Proof. revert c_foreign. clear. by_bits c. Qed.

Lemma foreign_not_dot : c <> "."%char.
Proof. revert c_foreign. clear. intros H ->. discriminate. Qed.

Lemma foreign_not_symbol : is_symbol c = false.
Proof. revert c_foreign. clear. by_bits c. Qed.

Lemma foreign_not_space : Ascii.eqb c " " = false.
Proof. revert c_foreign. clear. by_bits c. Qed.

Lemma foreign_not_in_words :
  forallb (fun w => negb (occurs c w)) (functions ++ constants) = true.
Proof. revert c_foreign. clear. by_bits c. Qed.

Lemma digits_before_foreign (a : string) :
  digits (a ++ tail) = (fst (digits a), (snd (digits a) ++ tail)%string).
Proof.
  induction a as [|x a IH]; simpl.
  - now rewrite foreign_not_digit.
  - destruct (is_digit x); [ | reflexivity ].
    rewrite IH. destruct (digits a); reflexivity.
Qed.

Lemma match_decimal_before_foreign (a : string) :
  matched (match_decimal (a ++ tail)) = matched (match_decimal a).
Proof.
  unfold match_decimal. rewrite digits_before_foreign.
  destruct (digits a) as [d1 r1]; simpl fst; simpl snd.
  destruct r1 as [|x r2].
  - simpl. destruct (Ascii.eqb_spec c ".") as [Hc|_]; [ | reflexivity ].
    now apply foreign_not_dot in Hc.
  - cbn [append]. destruct (Ascii.eqb x "."); [ | reflexivity ].
    rewrite digits_before_foreign.
    destruct (digits r2) as [d2 r3]; simpl fst; simpl snd.
    destruct (is_empty d2); reflexivity.
Qed.

Lemma match_integer_before_foreign (a : string) :
  matched (match_integer (a ++ tail)) = matched (match_integer a).
Proof.
  unfold match_integer. rewrite digits_before_foreign.
  destruct (digits a) as [d r]; simpl fst; simpl snd.
  destruct (is_empty d); reflexivity.
Qed.

Lemma match_symbol_before_foreign (a : string) :
  matched (match_symbol (a ++ tail)) = matched (match_symbol a).
Proof.
  destruct a as [|x a]; simpl.
  - now rewrite foreign_not_symbol.
  - destruct (is_symbol x); reflexivity.
Qed.

Lemma prefix_before_foreign (w a : string) :
  occurs c w = false -> prefix w (a ++ tail) = prefix w a.
Proof.
  revert a. induction w as [|y w IH]; intros a Hw; [ now destruct a | ].
  simpl in Hw. apply orb_false_iff in Hw as [Hy Hw].
  destruct a as [|x a]; simpl.
  - destruct (ascii_dec y c) as [->|_]; [ | reflexivity ].
    now rewrite Ascii.eqb_refl in Hy.
  - destruct (ascii_dec y x); [ now apply IH | reflexivity ].
Qed.

Lemma first_match_words_before_foreign (ws : list string) (a : string) :
  forallb (fun w => negb (occurs c w)) ws = true ->
  matched (first_match (map match_word ws) (a ++ tail))
  = matched (first_match (map match_word ws) a).
Proof.
  induction ws as [|w ws IH]; simpl; [ reflexivity | ].
  intros H. apply andb_true_iff in H as [Hw Hws].
  apply negb_true_iff in Hw.
  unfold match_word at 1 3. rewrite (prefix_before_foreign w a Hw).
  destruct (prefix w a); [ reflexivity | now apply IH ].
Qed.

Lemma first_match_before_foreign (a : string) :
  matched (first_match pattern (a ++ tail)) = matched (first_match pattern a).
Proof.
  rewrite !first_match_pattern.
  pose proof (match_decimal_before_foreign a) as H1.
  pose proof (match_integer_before_foreign a) as H2.
  pose proof (match_symbol_before_foreign a) as H3.
  destruct (match_decimal (a ++ tail)) as [[t r]|],
    (match_decimal a) as [[t' r']|]; try discriminate H1; [ exact H1 | ].
  destruct (match_integer (a ++ tail)) as [[t r]|],
    (match_integer a) as [[t' r']|]; try discriminate H2; [ exact H2 | ].
  destruct (match_symbol (a ++ tail)) as [[t r]|],
    (match_symbol a) as [[t' r']|]; try discriminate H3; [ exact H3 | ].
  apply first_match_words_before_foreign, foreign_not_in_words.
Qed.

Lemma findall_before_foreign (a : string) (skip : nat) :
  (skip <= String.length a)%nat ->
  findall (a ++ tail) skip = findall a skip ++ findall b 0.
Proof.
  revert skip. induction a as [|x a IH]; intros skip Hskip.
  - simpl in Hskip. replace skip with O by lia.
    change ("" ++ tail)%string with (String c b). rewrite findall_here.
    pose proof (first_match_before_foreign "") as H.
    change ("" ++ tail)%string with (String c b) in H.
    destruct (first_match pattern (String c b)) as [[t r]|];
      [ discriminate H | reflexivity ].
  - change (String x a ++ tail)%string with (String x (a ++ tail)).
    destruct skip as [|skip].
    + rewrite !findall_here.
      pose proof (first_match_before_foreign (String x a)) as H.
      change (String x a ++ tail)%string with (String x (a ++ tail)) in H.
      destruct (first_match pattern (String x (a ++ tail))) as [[t r]|],
        (first_match pattern (String x a)) as [[t' r']|] eqn:E;
        try discriminate H.
      * injection H as ->. simpl. f_equal. apply IH.
        apply first_match_lexeme, lexeme_length in E. simpl in E. lia.
      * apply IH. lia.
    + rewrite !findall_skip. apply IH. simpl in Hskip. lia.
Qed.

Lemma remove_spaces_before_foreign (a : string) :
  remove_spaces (a ++ tail) = (remove_spaces a ++ String c (remove_spaces b))%string.
Proof.
  induction a as [|x a IH]; simpl.
  - now rewrite foreign_not_space.
  - rewrite IH. destruct (Ascii.eqb x " "); reflexivity.
Qed.

End Foreign.

(** ** apply_operator pops one entry *)

Section EngineFacts.

Context {R : Runtime}.

(** Case analysis along the tests of [apply_operator]. *)
Ltac split_cases :=
  repeat (simpl;
    match goal with
    | |- context [if (?x =? ?y)%string then _ else _] =>
        destruct (x =? y)%string
    | |- context [if member ?x ?t then _ else _] => destruct (member x t)
    | |- context [if py_eq0 ?v then _ else _] => destruct (py_eq0 v)
    | |- context [match ?v with [] => _ | _ :: _ => _ end] =>
        is_var v; destruct v
    | |- context [bind (math_call ?f ?v) _] => destruct (math_call f v)
    | |- context [bind (py_lt0 ?v) _] => destruct (py_lt0 v) as [[|]|]
    | |- context [bind (py_le0 ?v) _] => destruct (py_le0 v) as [[|]|]
    | |- context [bind (py_abs ?v) _] => destruct (py_abs v)
    | |- context [bind (py_add ?x ?y) _] => destruct (py_add x y)
    | |- context [bind (py_sub ?x ?y) _] => destruct (py_sub x y)
    | |- context [bind (py_mul ?x ?y) _] => destruct (py_mul x y)
    | |- context [bind (py_div ?x ?y) _] => destruct (py_div x y)
    | |- context [bind (py_pow ?x ?y) _] => destruct (py_pow x y)
    | |- context [bind (py_mod ?x ?y) _] => destruct (py_mod x y)
    end).

(** The entries below the top of the operator stack are left as they are,
    and do not influence what happens to the operands. *)
Lemma apply_operator_top (op : string) (ops : list string) (vals : list value) :
  apply_operator (op :: ops, vals)
  = (vals' <- apply_top op vals ;; Ok (ops, vals')).
Proof.
  unfold apply_top, apply_operator. split_cases; reflexivity.
Qed.

Lemma apply_operator_pops (op : string) (ops ops' : list string)
    (vals vals' : list value) :
  apply_operator (op :: ops, vals) = Ok (ops', vals') -> ops' = ops.
Proof.
  rewrite apply_operator_top. destruct (apply_top op vals); simpl;
    [ | discriminate ].
  intros H; now injection H.
Qed.

(** ** Fuel *)

Lemma while_apply_S (cond : list string -> bool) (fuel : nat) (st : stacks) :
  while_apply cond (S fuel) st
  = if cond (fst st)
    then st' <~ Some (apply_operator st) ;; while_apply cond fuel st'
    else Some (Ok st).
Proof. reflexivity. Qed.

Lemma while_apply_O (cond : list string -> bool) (st : stacks) :
  while_apply cond O st = if cond (fst st) then None else Some (Ok st).
Proof. reflexivity. Qed.

Lemma while_apply_done (cond : list string -> bool) (fuel : nat) (st : stacks) :
  cond (fst st) = false -> while_apply cond fuel st = Some (Ok st).
Proof. intros H. destruct fuel; simpl; now rewrite H. Qed.

(** With one unit of fuel per entry of the operator stack a loop ends, and
    it leaves a stack that is no higher. *)
Lemma while_apply_terminates (p : string -> bool) :
  forall fuel ops vals,
    (List.length ops <= fuel)%nat ->
    exists r,
      while_apply (top_is p) fuel (ops, vals) = Some r
      /\ forall ops' vals', r = Ok (ops', vals') ->
                            (List.length ops' <= List.length ops)%nat.
Proof.
  induction fuel as [|fuel IH]; intros ops vals Hlen.
  - destruct ops; [ | simpl in Hlen; lia ].
    rewrite while_apply_done by reflexivity.
    eexists; split; [ reflexivity | ]. intros ? ? [= <- <-]. lia.
  - rewrite while_apply_S. cbn [fst]. destruct (top_is p ops) eqn:Ec.
    + destruct ops as [|op ops]; [ discriminate | ].
      rewrite apply_operator_top.
      destruct (apply_top op vals) as [vals1|e]; cbn [bind bind_fuel].
      * destruct (IH ops vals1) as (r & Hr & Hb); [ simpl in Hlen; lia | ].
        exists r; split; [ exact Hr | ].
        intros ops' vals' E. specialize (Hb _ _ E). simpl. lia.
      * eexists; split; [ reflexivity | discriminate ].
    + eexists; split; [ reflexivity | ].
      intros ? ? [= <- <-]. lia.
Qed.

(** More fuel does not change what a loop returned. *)
Lemma while_apply_more_fuel (cond : list string -> bool) (fuel : nat) :
  forall st r extra,
    while_apply cond fuel st = Some r ->
    while_apply cond (fuel + extra) st = Some r.
Proof.
  induction fuel as [|fuel IH]; intros st r extra.
  - rewrite while_apply_O. destruct (cond (fst st)) eqn:Ec; [ discriminate | ].
    intros <-. now apply while_apply_done.
  - cbn [Nat.add]. rewrite !while_apply_S. destruct (cond (fst st)); [ | auto ].
    destruct (apply_operator st) as [st'|e]; cbn [bind_fuel];
      [ apply IH | auto ].
Qed.

Lemma step_terminates (fuel : nat) (token : string) (ops : list string)
    (vals : list value) :
  (List.length ops <= fuel)%nat ->
  exists r,
    step fuel token (ops, vals) = Some r
    /\ forall ops' vals', r = Ok (ops', vals') ->
                          (List.length ops' <= S (List.length ops))%nat.
Proof.
  intros Hlen. unfold step. destruct (token_branch token).
  - eexists; split; [ reflexivity | ]. intros ? ? [= <- <-]. lia.
  - eexists; split; [ reflexivity | ]. intros ? ? [= <- <-]. simpl. lia.
  - eexists; split; [ reflexivity | ]. intros ? ? [= <- <-]. simpl. lia.
  - unfold until_open_paren.
    destruct (while_apply_terminates (fun top => negb (top =? "("))
                fuel ops vals Hlen) as (r & -> & Hb).
    destruct r as [[ops1 vals1]|e]; cbn [bind_fuel];
      [ | eexists; split; [ reflexivity | discriminate ] ].
    specialize (Hb _ _ eq_refl).
    destruct (top_is (fun top => top =? "(") ops1);
      [ | eexists; split; [ reflexivity | discriminate ] ].
    assert (Ht : (List.length (tl ops1) <= List.length ops)%nat)
      by (destruct ops1; simpl in *; lia).
    destruct (top_is (fun top => member top functions) (tl ops1)) eqn:Ef.
    + destruct (tl ops1) as [|f ops2]; [ discriminate | ].
      eexists; split; [ reflexivity | ]. intros ops' vals' E.
      apply apply_operator_pops in E as ->. simpl in Ht. lia.
    + eexists; split; [ reflexivity | ]. intros ? ? [= <- <-]. lia.
  - unfold outranks.
    destruct (while_apply_terminates
                (fun top => negb (top =? "(") && in_precedence top
                   && (precedence_get token <=? precedence_get top)%nat)
                fuel ops vals Hlen) as (r & -> & Hb).
    destruct r as [[ops1 vals1]|e]; cbn [bind_fuel];
      [ | eexists; split; [ reflexivity | discriminate ] ].
    specialize (Hb _ _ eq_refl).
    eexists; split; [ reflexivity | ]. intros ? ? [= <- <-]. simpl. lia.
  - eexists; split; [ reflexivity | discriminate ].
Qed.

Lemma step_more_fuel (fuel extra : nat) (token : string) (st : stacks) r :
  step fuel token st = Some r -> step (fuel + extra) token st = Some r.
Proof.
  unfold step. destruct st as [ops vals]. destruct (token_branch token); auto.
  - destruct (while_apply until_open_paren fuel (ops, vals)) as [r1|] eqn:E;
      [ | discriminate ].
    now rewrite (while_apply_more_fuel _ _ _ _ extra E).
  - destruct (while_apply (outranks token) fuel (ops, vals)) as [r1|] eqn:E;
      [ | discriminate ].
    now rewrite (while_apply_more_fuel _ _ _ _ extra E).
Qed.

Lemma scan_more_fuel (fuel extra : nat) (tokens : list string) :
  forall st r,
    scan fuel tokens st = Some r -> scan (fuel + extra) tokens st = Some r.
Proof.
  induction tokens as [|token tokens IH]; intros st r; simpl; [ auto | ].
  destruct (step fuel token st) as [r1|] eqn:E; [ | discriminate ].
  rewrite (step_more_fuel _ extra _ _ _ E).
  destruct r1 as [st1|e]; cbn [bind_fuel]; auto.
Qed.

(** Scanning [tokens] ends when the fuel covers the entries already on the
    operator stack and one more for each token. *)
Lemma scan_terminates (fuel : nat) (tokens : list string) :
  forall ops vals,
    (List.length ops + List.length tokens <= fuel)%nat ->
    exists r,
      scan fuel tokens (ops, vals) = Some r
      /\ forall ops' vals',
           r = Ok (ops', vals') ->
           (List.length ops' <= List.length ops + List.length tokens)%nat.
Proof.
  induction tokens as [|token tokens IH]; intros ops vals Hlen.
  - eexists; split; [ reflexivity | ]. intros ? ? [= <- <-]. lia.
  - cbn [scan]. simpl in Hlen.
    destruct (step_terminates fuel token ops vals) as (r1 & -> & Hb);
      [ lia | ].
    destruct r1 as [[ops1 vals1]|e]; cbn [bind_fuel];
      [ | eexists; split; [ reflexivity | discriminate ] ].
    specialize (Hb _ _ eq_refl).
    destruct (IH ops1 vals1) as (r & Hr & Hb'); [ lia | ].
    exists r; split; [ exact Hr | ].
    intros ops' vals' E. specialize (Hb' _ _ E). simpl. lia.
Qed.

Lemma evaluate_tokens_terminates (tokens : list string) :
  exists r, evaluate_tokens (List.length tokens) tokens = Some r.
Proof.
  unfold evaluate_tokens.
  destruct (scan_terminates (List.length tokens) tokens [] [])
    as (r1 & -> & Hb); [ simpl; lia | ].
  destruct r1 as [[ops1 vals1]|e]; cbn [bind_fuel]; [ | eauto ].
  specialize (Hb _ _ eq_refl). simpl in Hb. unfold not_empty.
  destruct (while_apply_terminates (fun _ => true) (List.length tokens)
              ops1 vals1 Hb) as (r2 & -> & _).
  destruct r2 as [[ops2 vals2]|e]; cbn [bind_fuel]; [ | eauto ].
  cbn [snd]. destruct vals2 as [|v [|? ?]]; eauto.
Qed.

Lemma evaluate_tokens_more_fuel (fuel extra : nat) (tokens : list string) r :
  evaluate_tokens fuel tokens = Some r ->
  evaluate_tokens (fuel + extra) tokens = Some r.
Proof.
  unfold evaluate_tokens.
  destruct (scan fuel tokens ([], [])) as [r1|] eqn:E1; [ | discriminate ].
  rewrite (scan_more_fuel _ extra _ _ _ E1).
  destruct r1 as [st1|e]; cbn [bind_fuel]; [ | auto ].
  destruct (while_apply not_empty fuel st1) as [r2|] eqn:E2; [ | discriminate ].
  now rewrite (while_apply_more_fuel _ _ _ _ extra E2).
Qed.

(** ** An open parenthesis below the entries in use *)

Section Frame.

Variable below : list string.

Local Abbreviation framed ops := (ops ++ "(" :: below).

Lemma while_apply_frame (p : string -> bool) :
  p "(" = false ->
  forall fuel ops vals ops' vals',
    while_apply (top_is p) fuel (ops, vals) = Some (Ok (ops', vals')) ->
    while_apply (top_is p) fuel (framed ops, vals)
    = Some (Ok (framed ops', vals')).
Proof.
  intros Hp. induction fuel as [|fuel IH]; intros ops vals ops' vals'.
  - rewrite while_apply_O. cbn [fst].
    destruct (top_is p ops) eqn:Ec; [ discriminate | ].
    intros [= <- <-]. apply while_apply_done. cbn [fst].
    destruct ops; [ exact Hp | exact Ec ].
  - rewrite !while_apply_S. cbn [fst].
    destruct ops as [|op ops].
    + cbn [top_is]. intros [= <- <-]. cbn [app top_is]. now rewrite Hp.
    + cbn [app top_is]. destruct (p op); [ | now intros [= <- <-] ].
      rewrite !apply_operator_top.
      destruct (apply_top op vals) as [vals1|e]; cbn [bind bind_fuel];
        [ apply IH | discriminate ].
Qed.

Lemma step_frame (fuel : nat) (token : string) ops vals ops' vals' :
  step fuel token (ops, vals) = Some (Ok (ops', vals')) ->
  step fuel token (framed ops, vals) = Some (Ok (framed ops', vals')).
Proof.
  unfold step, until_open_paren, outranks. destruct (token_branch token); try discriminate;
    try (now intros [= <- <-]).
  - destruct (while_apply _ fuel (ops, vals))
      as [[[ops1 vals1]|e]|] eqn:E; try discriminate.
    apply (while_apply_frame _ eq_refl) in E. rewrite E. cbn [bind_fuel].
    destruct ops1 as [|top ops1]; [ discriminate | ]. cbn [top_is tl app].
    destruct (top =? "("); [ | discriminate ].
    destruct ops1 as [|f ops1]; cbn [top_is app].
    + now intros [= <- <-].
    + destruct (member f functions); [ | now intros [= <- <-] ].
      rewrite !apply_operator_top.
      destruct (apply_top f vals1); cbn [bind]; [ | discriminate ].
      now intros [= <- <-].
  - destruct (while_apply _ fuel (ops, vals))
      as [[[ops1 vals1]|e]|] eqn:E; try discriminate.
    apply (while_apply_frame _ eq_refl) in E. rewrite E. cbn [bind_fuel].
    now intros [= <- <-].
Qed.

Lemma scan_frame (fuel : nat) (tokens : list string) :
  forall ops vals ops' vals',
    scan fuel tokens (ops, vals) = Some (Ok (ops', vals')) ->
    scan fuel tokens (framed ops, vals) = Some (Ok (framed ops', vals')).
Proof.
  induction tokens as [|token tokens IH]; intros ops vals ops' vals'.
  - now intros [= <- <-].
  - cbn [scan].
    destruct (step fuel token (ops, vals)) as [[[ops1 vals1]|e]|] eqn:E;
      try discriminate.
    rewrite (step_frame _ _ _ _ _ _ E). cbn [bind_fuel]. apply IH.
Qed.

End Frame.

(** Draining a stack with an open parenthesis at the bottom: one iteration
    more, which pops the parenthesis and leaves the operands alone. *)
Lemma drain_open_paren (fuel : nat) :
  forall ops vals ops' vals',
    while_apply not_empty fuel (ops, vals) = Some (Ok (ops', vals')) ->
    while_apply not_empty (S fuel) (ops ++ ["("], vals)
    = Some (Ok ([], vals')).
Proof.
  induction fuel as [|fuel IH]; intros ops vals ops' vals'.
  - rewrite while_apply_O. destruct ops; [ | discriminate ].
    now intros [= <- <-].
  - rewrite while_apply_S. destruct ops as [|op ops].
    + now intros [= <- <-].
    + cbn [fst not_empty top_is]. rewrite apply_operator_top.
      intros H. rewrite while_apply_S. cbn [app fst not_empty top_is].
      rewrite apply_operator_top.
      destruct (apply_top op vals) as [vals1|e]; cbn [bind bind_fuel] in *;
        [ eapply IH; eassumption | discriminate ].
Qed.

(** ** The loop of the close parenthesis *)

Lemma until_open_paren_spec (rest : list string) :
  forall pending fuel vals,
    Forall (fun op => op <> "(") pending ->
    (List.length pending <= fuel)%nat ->
    while_apply until_open_paren fuel (pending ++ "(" :: rest, vals)
    = Some (vals' <- apply_all pending vals ;; Ok ("(" :: rest, vals')).
Proof.
  induction pending as [|op pending IH]; intros fuel vals Hp Hlen.
  - now apply while_apply_done.
  - destruct fuel as [|fuel]; [ simpl in Hlen; lia | ].
    rewrite while_apply_S. cbn [app fst until_open_paren top_is].
    inversion Hp as [|? ? Hop Hp']; subst.
    apply String.eqb_neq in Hop. rewrite Hop. cbn [negb].
    rewrite apply_operator_top. cbn [apply_all].
    destruct (apply_top op vals) as [vals1|e]; cbn [bind bind_fuel];
      [ | reflexivity ].
    apply IH; [ exact Hp' | simpl in Hlen; lia ].
Qed.

(** ** Running the scanning loop *)

Lemma scan_cons (fuel : nat) (token : string) (tokens : list string)
    (st : stacks) :
  scan fuel (token :: tokens) st
  = (st' <~ step fuel token st ;; scan fuel tokens st').
Proof. reflexivity. Qed.

Lemma step_number (fuel : nat) (token : string) ops vals :
  is_number token = true ->
  step fuel token (ops, vals)
  = Some (Ok (ops, VFloat (float_of_token token) :: vals)).
Proof. intros H. unfold step, token_branch. now rewrite H. Qed.

Lemma step_operator (fuel : nat) (op : string) ops vals :
  In op (map fst precedence) ->
  step fuel op (ops, vals)
  = (st1 <~ while_apply (outranks op) fuel (ops, vals) ;;
     Some (Ok (op :: fst st1, snd st1))).
Proof.
  simpl. intros H.
  repeat (destruct H as [<-|H]; [ reflexivity | ]). contradiction.
Qed.

(** A binary operator works on the two operands on top, whatever lies
    below them. *)
Lemma apply_top_binary (op : string) (l r : value) (vals : list value) :
  In op (map fst precedence) ->
  apply_top op (r :: l :: vals) = (v <- binary op l r ;; Ok (v :: vals)).
Proof.
  simpl. intros H.
  repeat (destruct H as [<-|H];
          [ unfold binary, apply_top, apply_operator; split_cases;
            reflexivity | ]).
  contradiction.
Qed.

Lemma apply_top_one_operand (op : string) (v : value) :
  In op (map fst precedence) ->
  apply_top op [v]
  = Raise (ValueError ("Not enough operands for operator: " ++ op)).
Proof.
  simpl. intros H.
  repeat (destruct H as [<-|H]; [ reflexivity | ]). contradiction.
Qed.



Lemma evaluate_tokens_of (expression : string) :
  evaluate expression
  = evaluate_tokens (List.length (tokenize (lower expression)))
      (tokenize (lower expression)).
Proof. reflexivity. Qed.

End EngineFacts.

(** Decide the closed test of the conditional in the goal. *)
Ltac decide_test :=
  match goal with
  | |- context [if ?b then _ else _] =>
      let v := eval vm_compute in b in
      (unify v true + unify v false); change b with v; cbv iota
  end.

(** Run the scanning loop over numbers and binary operators. *)
Ltac run :=
  repeat first
    [ rewrite scan_cons
    | rewrite step_number by assumption
    | rewrite step_operator by first [ assumption | simpl; tauto ]
    | rewrite while_apply_done by reflexivity
    | rewrite while_apply_S; cbn [fst]; decide_test
    | rewrite apply_operator_top
    | rewrite apply_top_binary by first [ assumption | simpl; tauto ]
    | progress cbn [bind_fuel bind fst snd scan] ].

Lemma tokenize_open_paren (s : string) :
  tokenize (lower (String "(" s)) = "(" :: tokenize (lower s).
Proof. reflexivity. Qed.

(** * The properties of the specification *)

(** ** C1: text that is no token *)

(** At the input of C1, [tokenize] returns the tokens on both sides of [&]
    and reports nothing. *)
Lemma tokenize_ampersand_returns : tokenize "1 & 2" = ["1"; "2"].
Proof. reflexivity. Qed.

(** A character that is not a space and occurs in no token is passed over,
    and separates the tokens of the text before it from those of the text
    after it. *)
Lemma tokenize_skips_foreign (s1 s2 : string) (c : ascii) :
  foreign c = true ->
  tokenize (s1 ++ String c s2) = tokenize s1 ++ tokenize s2.
Proof.
  intros Hc. unfold tokenize.
  rewrite (remove_spaces_before_foreign c Hc).
  apply (findall_before_foreign c Hc). lia.
Qed.

(** C1, evaluated on the code.  [tokenize] never reports text that is no
    token: it passes over it, at the input of the claim and wherever such
    a character stands, so that [evaluate] computes with what is left.  The
    only error for a token that is not recognised, [Unknown token] in
    [evaluate], is for a token that [tokenize] never returns. *)
Theorem unrecognised_text_skipped {R : Runtime} :
  tokenize "1 & 2" = ["1"; "2"]
  /\ (forall s1 s2 c,
        foreign c = true ->
        tokenize (s1 ++ String c s2) = tokenize s1 ++ tokenize s2)
  /\ evaluate "2 $ + 3" = Some (Ok (VFloat 5))
  /\ evaluate "10k + 1" = Some (Ok (VFloat 11))
  /\ (forall s, Forall (fun token => token_branch token <> Unknown)
                  (tokenize (lower s))).
Proof.
  split; [ reflexivity | ].
  split; [ exact tokenize_skips_foreign | ].
  split; [ reflexivity | ].
  split; [ reflexivity | ].
  intros s. unfold tokenize. apply findall_lexemes. exact lexeme_branch.
Qed.

(** ** C8: every token has a branch *)

(** C8.  Whatever the text, each token that [tokenize] returns takes one
    of the five branches of the scanning loop that handle a token; the
    branch [Unknown], the only one that raises "Unknown token", is taken by
    none of them. *)
Theorem tokenize_tokens_handled (expression : string) :
  Forall (fun token => token_branch token <> Unknown) (tokenize expression).
Proof.
  unfold tokenize. apply findall_lexemes. exact lexeme_branch.
Qed.

(** ** C2: an open parenthesis that is never closed *)

(** C2 does not hold: [evaluate] returns 3 for the open parenthesis that
    is never closed. *)
Lemma evaluate_unclosed_paren_returns :
  @evaluate test_runtime "(1 + 2" = Some (Ok (VFloat 3)).
Proof. reflexivity. Qed.

(** C2, as amended.  An open parenthesis that no close parenthesis matches
    is dropped when the operator stack is drained at the end of the input:
    an expression that evaluates to [v] still evaluates to [v] with an open
    parenthesis put before it. *)
Theorem unmatched_open_paren_discarded {R : Runtime} (s : string) (v : value) :
  evaluate s = Some (Ok v) -> evaluate (String "(" s) = Some (Ok v).
Proof.
  rewrite !evaluate_tokens_of, tokenize_open_paren.
  generalize (tokenize (lower s)). intros tokens. cbn [List.length].
  unfold evaluate_tokens. rewrite scan_cons.
  change (step (S (List.length tokens)) "(" ([], []))
    with (Some (Ok (["("], @nil value))).
  cbn [bind_fuel].
  destruct (scan (List.length tokens) tokens ([], []))
    as [[[ops1 vals1]|e]|] eqn:E1; try discriminate.
  cbn [bind_fuel].
  apply (scan_more_fuel _ 1) in E1. rewrite Nat.add_1_r in E1.
  apply (scan_frame []) in E1. cbn [app] in E1. rewrite E1. cbn [bind_fuel].
  destruct (while_apply not_empty (List.length tokens) (ops1, vals1))
    as [[[ops2 vals2]|e]|] eqn:E2; try discriminate.
  cbn [bind_fuel snd]. rewrite (drain_open_paren _ _ _ _ _ E2).
  cbn [bind_fuel snd]. auto.
Qed.

Lemma unmatched_open_paren_discarded_witness :
  @evaluate test_runtime "1 + 2" = Some (Ok (VFloat 3))
  /\ @evaluate test_runtime "(1 + 2" = Some (Ok (VFloat 3)).
Proof.
  split; [ reflexivity | ].
  apply (@unmatched_open_paren_discarded test_runtime "1 + 2"). reflexivity.
Defined.

(** ** C3: modulo by zero *)

(** C3, evaluated on the code.  [%] has no guard of its own: with a zero
    divisor the interpreter's [ZeroDivisionError] leaves [evaluate], where
    [/] raises the [ValueError] of its guard. *)
Theorem modulo_by_zero_unguarded {R : Runtime} :
  evaluate "5 % 0" = Some (Raise ZeroDivisionError)
  /\ evaluate "5 / 0" = Some (Raise (ValueError "Division by zero")).
Proof. split; reflexivity. Qed.

(** ** C9: termination *)

(** C9.  [evaluate] returns or raises on every input: the fuel it gives its
    loops, one unit per token, is never used up, and with more fuel the
    outcome is the same.  What the loops rely on: [apply_operator] pops the
    top entry of the operator stack and leaves the entries below it. *)
Theorem evaluate_terminates {R : Runtime} (expression : string) :
  (exists r, evaluate expression = Some r)
  /\ (forall extra,
        evaluate_fuel (List.length (tokenize (lower expression)) + extra)
          expression
        = evaluate expression)
  /\ (forall op ops vals,
        apply_operator (op :: ops, vals)
        = (vals' <- apply_top op vals ;; Ok (ops, vals'))).
Proof.
  destruct (evaluate_tokens_terminates (tokenize (lower expression)))
    as [r Hr].
  split; [ exists r; exact Hr | split ].
  - intros extra. rewrite evaluate_tokens_of, Hr.
    apply evaluate_tokens_more_fuel, Hr.
  - apply apply_operator_top.
Qed.

(** ** Two operators in a row *)


(** ** C6: the close parenthesis *)

(** C6.  At a close parenthesis the entries above the nearest open
    parenthesis are applied from the top, the open parenthesis is popped,
    and a function name found on top then is applied at once. *)
Theorem close_paren_applies_function {R : Runtime} :
  (forall fuel pending rest vals,
     Forall (fun op => op <> "(") pending ->
     (List.length pending <= fuel)%nat ->
     step fuel ")" (pending ++ "(" :: rest, vals)
     = Some (vals' <- apply_all pending vals ;;
             if top_is (fun top => member top functions) rest
             then apply_operator (rest, vals')
             else Ok (rest, vals')))
  /\ evaluate "sqrt(16) + 1" = Some (Ok (VFloat 5)).
Proof.
  split; [ | reflexivity ].
  intros fuel pending rest vals Hp Hlen. unfold step.
  change (token_branch ")") with CloseParen. cbv iota.
  rewrite until_open_paren_spec by assumption.
  destruct (apply_all pending vals) as [vals'|e]; cbn [bind bind_fuel];
    [ | reflexivity ].
  change (top_is (fun top => top =? "(") ("(" :: rest)) with true.
  cbv iota. cbn [tl].
  destruct (top_is (fun top => member top functions) rest); reflexivity.
Qed.

Lemma close_paren_applies_function_witness :
  @step test_runtime 1 ")" (["+"; "("; "sqrt"], [VFloat 9; VFloat 7])
  = Some (Ok ([], [VFloat 4])).
Proof.
  refine (proj1 (@close_paren_applies_function test_runtime)
            1 ["+"] ["sqrt"] [VFloat 9; VFloat 7] _ _).
  - repeat constructor. discriminate.
  - apply le_n.
Defined.

(** ** C7: the guards of [apply_operator] *)

(** C7.  [sqrt] of a negative operand, [log] and [ln] of an operand that is
    not positive, and [/] by zero raise the error of their guard; [sin],
    [cos], [tan] and [abs] have no guard, and give what the runtime gives. *)
Theorem domain_guards {R : Runtime} (ops : list string) (vals : list value) :
  (forall x, PrimFloat.ltb x zero = true ->
     apply_operator ("sqrt" :: ops, VFloat x :: vals)
     = Raise (ValueError "Cannot take square root of negative number"))
  /\ (forall x, PrimFloat.leb x zero = true ->
        apply_operator ("log" :: ops, VFloat x :: vals)
        = Raise (ValueError "Cannot take log of non-positive number"))
  /\ (forall x, PrimFloat.leb x zero = true ->
        apply_operator ("ln" :: ops, VFloat x :: vals)
        = Raise (ValueError "Cannot take natural log of non-positive number"))
  /\ (forall l r, py_eq0 r = true ->
        apply_operator ("/" :: ops, r :: l :: vals)
        = Raise (ValueError "Division by zero"))
  /\ (forall x,
        apply_operator ("sin" :: ops, VFloat x :: vals)
        = (r <- math_sin x ;; Ok (ops, VFloat r :: vals)))
  /\ (forall x,
        apply_operator ("cos" :: ops, VFloat x :: vals)
        = (r <- math_cos x ;; Ok (ops, VFloat r :: vals)))
  /\ (forall x,
        apply_operator ("tan" :: ops, VFloat x :: vals)
        = (r <- math_tan x ;; Ok (ops, VFloat r :: vals)))
  /\ (forall x,
        apply_operator ("abs" :: ops, VFloat x :: vals)
        = Ok (ops, VFloat (PrimFloat.abs x) :: vals)).
Proof.
  repeat split; intros.
  - unfold apply_operator. simpl. now rewrite H.
  - unfold apply_operator. simpl. now rewrite H.
  - unfold apply_operator. simpl. now rewrite H.
  - unfold apply_operator. simpl. now rewrite H.
  - unfold apply_operator. simpl. now destruct (math_sin x).
  - unfold apply_operator. simpl. now destruct (math_cos x).
  - unfold apply_operator. simpl. now destruct (math_tan x).
Qed.

Lemma domain_guards_witness :
  @apply_operator test_runtime (["sqrt"], [VFloat (-1)])
  = Raise (ValueError "Cannot take square root of negative number")
  /\ @apply_operator test_runtime (["log"], [VFloat 0])
     = Raise (ValueError "Cannot take log of non-positive number")
  /\ @apply_operator test_runtime (["ln"], [VFloat (-5)])
     = Raise (ValueError "Cannot take natural log of non-positive number")
  /\ @apply_operator test_runtime (["/"], [VFloat 0; VFloat 5])
     = Raise (ValueError "Division by zero").
Proof.
  destruct (@domain_guards test_runtime [] []) as (H1 & H2 & H3 & H4 & _).
  split; [ apply H1; reflexivity | ].
  split; [ apply H2; reflexivity | ].
  split; [ apply H3; reflexivity | apply H4; reflexivity ].
Defined.

(** * Further properties of the code *)

(** ** Characters that end a token *)

Section Separator.

Variable c : ascii.
Hypothesis c_ends : ends_token c = true.
Variable b : string.

Local Abbreviation tail := (String c b).

Lemma ends_token_not_digit : is_digit c = false.
Proof.
  unfold ends_token in c_ends. apply andb_true_iff in c_ends as [H _].
  apply andb_true_iff in H as [H _]. now apply negb_true_iff in H.
Qed.

Lemma ends_token_not_dot : Ascii.eqb c "." = false.
Proof.
  unfold ends_token in c_ends. apply andb_true_iff in c_ends as [H _].
  apply andb_true_iff in H as [_ H]. now apply negb_true_iff in H.
Qed.

Lemma ends_token_not_in_words :
  forallb (fun w => negb (occurs c w)) (functions ++ constants) = true.
Proof. unfold ends_token in c_ends. now apply andb_true_iff in c_ends as [_ H]. Qed.

Lemma digits_before_end (a : string) :
  digits (a ++ tail) = (fst (digits a), (snd (digits a) ++ tail)%string).
Proof.
  induction a as [|x a IH]; simpl.
  - now rewrite ends_token_not_digit.
  - destruct (is_digit x); [ | reflexivity ].
    rewrite IH. destruct (digits a); reflexivity.
Qed.

Lemma match_decimal_before_end (a : string) :
  matched (match_decimal (a ++ tail)) = matched (match_decimal a).
Proof.
  unfold match_decimal. rewrite digits_before_end.
  destruct (digits a) as [d1 r1]; simpl fst; simpl snd.
  destruct r1 as [|x r2].
  - simpl. now rewrite ends_token_not_dot.
  - cbn [append]. destruct (Ascii.eqb x "."); [ | reflexivity ].
    rewrite digits_before_end.
    destruct (digits r2) as [d2 r3]; simpl fst; simpl snd.
    destruct (is_empty d2); reflexivity.
Qed.

Lemma match_integer_before_end (a : string) :
  matched (match_integer (a ++ tail)) = matched (match_integer a).
Proof.
  unfold match_integer. rewrite digits_before_end.
  destruct (digits a) as [d r]; simpl fst; simpl snd.
  destruct (is_empty d); reflexivity.
Qed.

Lemma first_match_before_end (x : ascii) (a : string) :
  matched (first_match pattern (String x a ++ tail))
  = matched (first_match pattern (String x a)).
Proof.
  rewrite !first_match_pattern.
  pose proof (match_decimal_before_end (String x a)) as H1.
  pose proof (match_integer_before_end (String x a)) as H2.
  destruct (match_decimal (String x a ++ tail)) as [[t r]|],
    (match_decimal (String x a)) as [[t' r']|]; try discriminate H1;
    [ exact H1 | ].
  destruct (match_integer (String x a ++ tail)) as [[t r]|],
    (match_integer (String x a)) as [[t' r']|]; try discriminate H2;
    [ exact H2 | ].
  cbn [append match_symbol]. destruct (is_symbol x); [ reflexivity | ].
  apply (first_match_words_before_foreign c b (functions ++ constants)
           (String x a)), ends_token_not_in_words.
Qed.

Lemma findall_before_end (a : string) (skip : nat) :
  (skip <= String.length a)%nat ->
  findall (a ++ tail) skip = findall a skip ++ findall tail 0.
Proof.
  revert skip. induction a as [|x a IH]; intros skip Hskip.
  - simpl in Hskip. replace skip with O by lia. reflexivity.
  - change (String x a ++ tail)%string with (String x (a ++ tail)).
    destruct skip as [|skip].
    + rewrite !findall_here.
      pose proof (first_match_before_end x a) as H.
      change (String x a ++ tail)%string with (String x (a ++ tail)) in H.
      destruct (first_match pattern (String x (a ++ tail))) as [[t r]|],
        (first_match pattern (String x a)) as [[t' r']|] eqn:E;
        try discriminate H.
      * injection H as ->. simpl. f_equal. apply IH.
        apply first_match_lexeme, lexeme_length in E. simpl in E. lia.
      * apply IH. lia.
    + rewrite !findall_skip. apply IH. simpl in Hskip. lia.
Qed.

End Separator.

Lemma symbol_ends_token (c : ascii) : is_symbol c = true -> ends_token c = true.
Proof. by_bits c. Qed.

Lemma symbol_not_space (c : ascii) : is_symbol c = true -> Ascii.eqb c " " = false.
Proof. by_bits c. Qed.

Lemma findall_symbol (c : ascii) (b : string) :
  is_symbol c = true -> findall (String c b) 0 = String c "" :: findall b 0.
Proof.
  intros Hc. rewrite findall_here, first_match_pattern.
  pose proof (symbol_ends_token c Hc) as He.
  unfold match_decimal, match_integer. cbn [digits].
  rewrite (ends_token_not_digit c He). cbn [is_empty].
  rewrite (ends_token_not_dot c He). cbn [match_symbol]. rewrite Hc.
  reflexivity.
Qed.

Lemma remove_spaces_app (a b : string) :
  remove_spaces (a ++ b) = (remove_spaces a ++ remove_spaces b)%string.
Proof.
  induction a as [|x a IH]; simpl; [ reflexivity | ].
  rewrite IH. destruct (Ascii.eqb x " "); reflexivity.
Qed.

Lemma lower_app (a b : string) : lower (a ++ b) = (lower a ++ lower b)%string.
Proof. induction a as [|x a IH]; simpl; [ reflexivity | now rewrite IH ]. Qed.

Lemma remove_spaces_length (s : string) :
  (String.length (remove_spaces s) <= String.length s)%nat.
Proof.
  induction s as [|x s IH]; simpl; [ lia | ].
  destruct (Ascii.eqb x " "); simpl; lia.
Qed.

Lemma tokenize_symbol_between (s1 s2 : string) (c : ascii) :
  is_symbol c = true ->
  tokenize (s1 ++ String c s2) = tokenize s1 ++ String c "" :: tokenize s2.
Proof.
  intros Hc. unfold tokenize. rewrite remove_spaces_app. cbn [remove_spaces].
  rewrite (symbol_not_space c Hc).
  rewrite (findall_before_end c (symbol_ends_token c Hc)) by lia.
  now rewrite (findall_symbol c _ Hc).
Qed.

(** ** Tokens as text *)

Lemma findall_skip_all (s : string) :
  forall skip, (String.length s <= skip)%nat -> findall s skip = [].
Proof.
  induction s as [|x s IH]; intros skip H; [ reflexivity | ].
  destruct skip as [|skip]; [ simpl in H; lia | ].
  rewrite findall_skip. apply IH. simpl in H. lia.
Qed.

(** A text that the pattern matches whole is one token. *)
Lemma findall_whole (s rest : string) :
  s <> EmptyString ->
  first_match pattern s = Some (s, rest) -> findall s 0 = [s].
Proof.
  destruct s as [|x s]; [ congruence | ]. intros _ H.
  rewrite findall_here, H. f_equal. apply findall_skip_all. simpl. lia.
Qed.

Lemma remove_spaces_digits (d : string) :
  all_digits d = true -> remove_spaces d = d.
Proof.
  induction d as [|x d IH]; simpl; [ reflexivity | ].
  intros H. apply andb_true_iff in H as [Hx Hd]. rewrite (IH Hd).
  replace (Ascii.eqb x " ") with false; [ reflexivity | ].
  revert Hx. clear. by_bits x.
Qed.

Lemma lower_digits (d : string) : all_digits d = true -> lower d = d.
Proof.
  induction d as [|x d IH]; simpl; [ reflexivity | ].
  intros H. apply andb_true_iff in H as [Hx Hd]. rewrite (IH Hd).
  f_equal. revert Hx. clear. by_bits x.
Qed.

Lemma match_decimal_whole (d1 d2 : string) :
  all_digits d1 = true -> all_digits d2 = true -> d2 <> EmptyString ->
  match_decimal (d1 ++ "." ++ d2) = Some ((d1 ++ "." ++ d2)%string, EmptyString).
Proof.
  intros H1 H2 Hne. unfold match_decimal.
  rewrite (digits_append d1 ("." ++ d2)) by (auto; reflexivity).
  simpl. rewrite (digits_of_digits d2 H2).
  destruct d2; [ congruence | reflexivity ].
Qed.

Lemma match_integer_whole (d : string) :
  all_digits d = true -> d <> EmptyString ->
  match_decimal d = None /\ match_integer d = Some (d, EmptyString).
Proof.
  intros H Hne. unfold match_decimal, match_integer.
  rewrite (digits_of_digits d H). destruct d; [ congruence | ]. auto.
Qed.

Lemma tokenize_decimal (d1 d2 : string) :
  all_digits d1 = true -> all_digits d2 = true -> d2 <> EmptyString ->
  tokenize (d1 ++ "." ++ d2) = [(d1 ++ "." ++ d2)%string].
Proof.
  intros H1 H2 Hne. unfold tokenize.
  rewrite remove_spaces_app, (remove_spaces_digits d1 H1).
  change (remove_spaces ("." ++ d2)) with (String "." (remove_spaces d2)).
  rewrite (remove_spaces_digits d2 H2).
  apply (findall_whole (d1 ++ "." ++ d2) EmptyString).
  - destruct d1; discriminate.
  - rewrite first_match_pattern. now rewrite match_decimal_whole.
Qed.

Lemma tokenize_integer (d : string) :
  all_digits d = true -> d <> EmptyString -> tokenize d = [d].
Proof.
  intros H Hne. unfold tokenize. rewrite remove_spaces_digits by assumption.
  apply (findall_whole _ EmptyString); [ exact Hne | ].
  rewrite first_match_pattern.
  destruct (match_integer_whole d H Hne) as [-> ->]. reflexivity.
Qed.

Lemma lexeme_retokenized (s tok : string) : lexeme s tok -> tokenize tok = [tok].
Proof.
  intros [rest H|rest H|rest H|Hin _].
  - apply match_decimal_shape in H as (d1 & d2 & -> & H1 & H2 & Hne & _).
    now apply tokenize_decimal.
  - apply match_integer_shape in H as (Hd & Hne & _).
    now apply tokenize_integer.
  - apply match_symbol_shape in H as (c & -> & Hc & _).
    apply is_symbol_cases in Hc. simpl in Hc.
    repeat (destruct Hc as [<-|Hc]; [ reflexivity | ]). contradiction.
  - simpl in Hin.
    repeat (destruct Hin as [<-|Hin]; [ reflexivity | ]). contradiction.
Qed.

(** X1: every token that [tokenize] returns is a fixed point of it: the
    token, tokenized on its own, gives back that one token. *)
Theorem tokenize_tokens_stable (expression : string) :
  Forall (fun token => tokenize token = [token]) (tokenize expression).
Proof.
  unfold tokenize at 2. apply findall_lexemes. exact lexeme_retokenized.
Qed.

Lemma numeral_cases (n : string) :
  numeral n = true ->
  (all_digits n = true /\ n <> EmptyString)
  \/ exists d1 d2,
       n = (d1 ++ "." ++ d2)%string /\ all_digits d1 = true
       /\ all_digits d2 = true /\ d2 <> EmptyString.
Proof.
  unfold numeral. pose proof (digits_split n) as Hs.
  pose proof (digits_all_digits n) as Hd1.
  destruct (digits n) as [d1 r1]; simpl in Hs, Hd1.
  destruct r1 as [|c r2].
  - rewrite append_empty_r in Hs. subst d1. intros H. left. split; auto.
    destruct n; [ discriminate | discriminate ].
  - destruct (Ascii.eqb_spec c ".") as [->|_]; [ | discriminate ].
    pose proof (digits_split r2) as Hr. pose proof (digits_all_digits r2) as Hd2.
    destruct (digits r2) as [d2 r3]; simpl in Hr, Hd2. simpl.
    intros H. apply andb_true_iff in H as [Hne He]. right.
    destruct r3; [ | discriminate ]. rewrite append_empty_r in Hr. subst r2.
    exists d1, d2. repeat split; auto. destruct d2; [ discriminate | discriminate ].
Qed.

Lemma numeral_is_number (n : string) : numeral n = true -> is_number n = true.
Proof.
  intros H. destruct (numeral_cases n H)
    as [[Hd Hne]|(d1 & d2 & -> & H1 & H2 & Hne)].
  - now apply is_number_integer.
  - now apply is_number_decimal.
Qed.

Lemma numeral_tokenized (n : string) :
  numeral n = true -> tokenize (lower n) = [n].
Proof.
  intros H. destruct (numeral_cases n H)
    as [[Hd Hne]|(d1 & d2 & -> & H1 & H2 & Hne)].
  - rewrite lower_digits by assumption. now apply tokenize_integer.
  - rewrite lower_app, (lower_digits d1 H1).
    change (lower ("." ++ d2)) with (String "." (lower d2)).
    rewrite (lower_digits d2 H2). now apply tokenize_decimal.
Qed.

(** ** The tokens lie side by side in the text *)

Lemma findall_total_length (s : string) :
  forall skip,
    (total_length (findall s skip) + skip <= Nat.max (String.length s) skip)%nat.
Proof.
  induction s as [|x s IH]; intros skip; [ simpl; lia | ].
  destruct skip as [|skip].
  - rewrite findall_here.
    destruct (first_match pattern (String x s)) as [[tok rest]|] eqn:E.
    + apply first_match_lexeme, lexeme_length in E.
      specialize (IH (String.length tok - 1)%nat). simpl in *. lia.
    + specialize (IH O). simpl in *. lia.
  - rewrite findall_skip. specialize (IH skip). simpl. lia.
Qed.

Lemma tokens_not_empty (s : string) (skip : nat) :
  Forall (fun token => token <> EmptyString) (findall s skip).
Proof.
  apply findall_lexemes. clear. intros s tok [rest H|rest H|rest H|Hin _].
  - apply match_decimal_shape in H as (d1 & d2 & -> & _).
    destruct d1; discriminate.
  - now apply match_integer_shape in H as (_ & Hne & _).
  - apply match_symbol_shape in H as (c & -> & _). discriminate.
  - simpl in Hin.
    repeat (destruct Hin as [<-|Hin]; [ discriminate | ]). contradiction.
Qed.

Lemma count_le_total (tokens : list string) :
  Forall (fun token => token <> EmptyString) tokens ->
  (List.length tokens <= total_length tokens)%nat.
Proof.
  induction 1 as [|t ts Ht _ IH]; simpl; [ lia | ].
  destruct t; [ congruence | simpl; lia ].
Qed.

(** X2: the tokens are disjoint pieces of the text: together they are no
    longer than the expression, and there are no more tokens than
    characters. *)
Theorem tokenize_within_text (expression : string) :
  (total_length (tokenize expression) <= String.length expression)%nat
  /\ (List.length (tokenize expression) <= String.length expression)%nat.
Proof.
  assert (H : (total_length (tokenize expression)
               <= String.length expression)%nat).
  { unfold tokenize.
    pose proof (findall_total_length (remove_spaces expression) 0).
    pose proof (remove_spaces_length expression). lia. }
  split; [ exact H | ].
  pose proof (count_le_total _ (tokens_not_empty (remove_spaces expression) 0)).
  unfold tokenize in *. lia.
Qed.

(** ** Draining the operator stack *)

Section DrainFacts.

Context {R : Runtime}.

Lemma apply_all_app (a b : list string) :
  forall vals,
    apply_all (a ++ b) vals = (vals' <- apply_all a vals ;; apply_all b vals').
Proof.
  induction a as [|op a IH]; intros vals; [ reflexivity | ].
  cbn [app apply_all]. destruct (apply_top op vals) as [vals1|e];
    cbn [bind]; [ apply IH | reflexivity ].
Qed.

(** The loop at the end of [evaluate] applies every entry. *)
Lemma drain_spec :
  forall ops fuel vals,
    (List.length ops <= fuel)%nat ->
    while_apply not_empty fuel (ops, vals)
    = Some (vals' <- apply_all ops vals ;; Ok ([], vals')).
Proof.
  induction ops as [|op ops IH]; intros fuel vals Hlen.
  - now apply while_apply_done.
  - destruct fuel as [|fuel]; [ simpl in Hlen; lia | ].
    rewrite while_apply_S. cbn [fst not_empty top_is apply_all].
    rewrite apply_operator_top.
    destruct (apply_top op vals) as [vals1|e]; cbn [bind bind_fuel];
      [ | reflexivity ].
    apply IH. simpl in Hlen. lia.
Qed.

(** The loop of a close parenthesis on a stack with no open parenthesis
    applies every entry. *)
Lemma until_open_paren_none :
  forall pending fuel vals,
    Forall (fun op => op <> "(") pending ->
    (List.length pending <= fuel)%nat ->
    while_apply until_open_paren fuel (pending, vals)
    = Some (vals' <- apply_all pending vals ;; Ok ([], vals')).
Proof.
  induction pending as [|op pending IH]; intros fuel vals Hp Hlen.
  - now apply while_apply_done.
  - destruct fuel as [|fuel]; [ simpl in Hlen; lia | ].
    rewrite while_apply_S. cbn [fst until_open_paren top_is].
    inversion Hp as [|? ? Hop Hp']; subst.
    apply String.eqb_neq in Hop. rewrite Hop. cbn [negb apply_all].
    rewrite apply_operator_top.
    destruct (apply_top op vals) as [vals1|e]; cbn [bind bind_fuel];
      [ | reflexivity ].
    apply IH; [ exact Hp' | simpl in Hlen; lia ].
Qed.

Lemma some_eq {A : Type} (x y : A) : Some x = Some y -> x = y.
Proof. congruence. Qed.

Lemma apply_top_open_paren (vals : list value) : apply_top "(" vals = Ok vals.
Proof. reflexivity. Qed.

Lemma split_at_open_paren (ops : list string) :
  Forall (fun op => op <> "(") ops
  \/ exists pending rest,
       ops = pending ++ "(" :: rest /\ Forall (fun op => op <> "(") pending.
Proof.
  induction ops as [|op ops IH]; [ left; constructor | ].
  destruct (String.eqb_spec op "(") as [->|Hop].
  - right. exists [], ops. split; [ reflexivity | constructor ].
  - destruct IH as [IH|(pending & rest & -> & Hp)].
    + left. now constructor.
    + right. exists (op :: pending), rest. split; [ reflexivity | ].
      now constructor.
Qed.

(** The step of a close parenthesis, by cases on the operator stack. *)
Lemma step_close_paren (fuel : nat) (ops : list string) (vals : list value) :
  (List.length ops <= fuel)%nat ->
  (Forall (fun op => op <> "(") ops
   /\ step fuel ")" (ops, vals)
      = Some (_ <- apply_all ops vals ;;
              Raise (ValueError "Mismatched parentheses")))
  \/ exists pending rest,
       ops = pending ++ "(" :: rest
       /\ Forall (fun op => op <> "(") pending
       /\ step fuel ")" (ops, vals)
          = Some (vals' <- apply_all pending vals ;;
                  if top_is (fun top => member top functions) rest
                  then apply_operator (rest, vals')
                  else Ok (rest, vals')).
Proof.
  intros Hlen.
  destruct (split_at_open_paren ops) as [Hp|(pending & rest & -> & Hp)].
  - left. split; [ exact Hp | ]. unfold step.
    change (token_branch ")") with CloseParen. cbv iota.
    rewrite until_open_paren_none by assumption.
    destruct (apply_all ops vals); reflexivity.
  - right. exists pending, rest. repeat split; [ exact Hp | ]. unfold step.
    change (token_branch ")") with CloseParen. cbv iota.
    rewrite until_open_paren_spec;
      [ | exact Hp | rewrite length_app in Hlen; lia ].
    destruct (apply_all pending vals) as [vals'|e]; cbn [bind bind_fuel];
      [ | reflexivity ].
    change (top_is (fun top => top =? "(") ("(" :: rest)) with true.
    cbv iota. cbn [tl].
    destruct (top_is (fun top => member top functions) rest); reflexivity.
Qed.

(** After a close parenthesis that found its open parenthesis, draining
    the stack gives what draining it before the close parenthesis gives. *)
Lemma close_paren_then_drain (fuel : nat) (ops : list string)
    (vals : list value) (r : result stacks) :
  (List.length ops <= fuel)%nat ->
  In "(" ops ->
  step fuel ")" (ops, vals) = Some r ->
  (st <- r ;; apply_all (fst st) (snd st)) = apply_all ops vals
  /\ forall st, r = Ok st -> (List.length (fst st) < List.length ops)%nat.
Proof.
  intros Hlen Hin.
  destruct (step_close_paren fuel ops vals Hlen)
    as [[Hp _]|(pending & rest & -> & Hp & ->)].
  { exfalso. rewrite Forall_forall in Hp. now apply (Hp "("). }
  intros Hr. apply some_eq in Hr. subst r.
  rewrite apply_all_app. cbn [apply_all].
  destruct (apply_all pending vals) as [vals'|e]; cbn [bind];
    [ | split; [ reflexivity | discriminate ] ].
  rewrite apply_top_open_paren. cbn [bind].
  rewrite length_app. cbn [List.length].
  destruct rest as [|f rest]; cbn [top_is].
  - split; [ reflexivity | ]. intros st [= <-]. simpl. lia.
  - destruct (member f functions).
    + rewrite apply_operator_top. cbn [apply_all].
      destruct (apply_top f vals') as [vals2|e]; cbn [bind fst snd];
        [ | split; [ reflexivity | discriminate ] ].
      split; [ reflexivity | ]. intros st [= <-]. simpl. lia.
    + split; [ reflexivity | ]. intros st [= <-]. simpl. lia.
Qed.

Lemma close_paren_needs_open (fuel : nat) (ops : list string)
    (vals : list value) (st : stacks) :
  (List.length ops <= fuel)%nat ->
  step fuel ")" (ops, vals) = Some (Ok st) -> In "(" ops.
Proof.
  intros Hlen.
  destruct (step_close_paren fuel ops vals Hlen)
    as [[_ ->]|(pending & rest & -> & _)].
  - destruct (apply_all ops vals); discriminate.
  - intros _. apply in_or_app. right. now left.
Qed.

Lemma scan_app (fuel : nat) (ts1 ts2 : list string) :
  forall st,
    scan fuel (ts1 ++ ts2) st
    = (st' <~ scan fuel ts1 st ;; scan fuel ts2 st').
Proof.
  induction ts1 as [|t ts1 IH]; intros st; [ reflexivity | ].
  cbn [app scan].
  destruct (step fuel t st) as [[st1|e]|]; cbn [bind_fuel];
    [ apply IH | reflexivity | reflexivity ].
Qed.

(** [evaluate_tokens] with fuel to spare, without the fuel. *)
Lemma evaluate_tokens_finish (fuel : nat) (tokens : list string) :
  (List.length tokens <= fuel)%nat ->
  evaluate_tokens fuel tokens
  = (st <~ scan fuel tokens ([], []) ;; Some (finish st)).
Proof.
  intros Hlen. unfold evaluate_tokens.
  destruct (scan_terminates fuel tokens [] []) as (r & Hr & Hb);
    [ simpl; lia | ].
  rewrite Hr. destruct r as [[ops vals]|e]; cbn [bind_fuel]; [ | reflexivity ].
  specialize (Hb _ _ eq_refl). simpl in Hb.
  rewrite drain_spec by lia. unfold finish. cbn [fst snd].
  destruct (apply_all ops vals) as [vals'|e]; cbn [bind bind_fuel snd];
    [ | reflexivity ].
  destruct vals' as [|v [|? ?]]; reflexivity.
Qed.

(** Fuel beyond one unit per token changes nothing. *)
Lemma evaluate_tokens_fuel (fuel : nat) (tokens : list string) :
  (List.length tokens <= fuel)%nat ->
  evaluate_tokens fuel tokens = evaluate_tokens (List.length tokens) tokens.
Proof.
  intros Hlen. destruct (evaluate_tokens_terminates tokens) as [r Hr].
  rewrite Hr. replace fuel with (List.length tokens + (fuel - List.length tokens))%nat by lia.
  now apply evaluate_tokens_more_fuel.
Qed.

Lemma scan_fuel (fuel : nat) (tokens : list string) ops vals :
  (List.length ops + List.length tokens <= fuel)%nat ->
  scan fuel tokens (ops, vals)
  = scan (List.length ops + List.length tokens) tokens (ops, vals).
Proof.
  intros Hlen.
  destruct (scan_terminates (List.length ops + List.length tokens) tokens
              ops vals) as (r & Hr & _); [ lia | ].
  rewrite Hr.
  replace fuel with (List.length ops + List.length tokens
                     + (fuel - (List.length ops + List.length tokens)))%nat
    by lia.
  now apply scan_more_fuel.
Qed.

End DrainFacts.

(** ** Parentheses *)

Lemma tokenize_head_symbol (c : ascii) (s : string) :
  is_symbol c = true -> tokenize (String c s) = String c "" :: tokenize s.
Proof.
  intros Hc. apply (tokenize_symbol_between "" s c Hc).
Qed.

Lemma tokenize_last_symbol (c : ascii) (s : string) :
  is_symbol c = true ->
  tokenize (s ++ String c "") = tokenize s ++ [String c ""].
Proof.
  intros Hc. apply (tokenize_symbol_between s "" c Hc).
Qed.

Lemma finish_ok {R : Runtime} (st : stacks) (v : value) :
  finish st = Ok v <-> apply_all (fst st) (snd st) = Ok [v].
Proof.
  unfold finish. destruct (apply_all (fst st) (snd st)) as [[|x [|? ?]]|e];
    cbn [bind]; split; intros H; try discriminate; congruence.
Qed.

(** What [evaluate] returns, from the state that the scan reaches. *)
Lemma evaluate_scan {R : Runtime} (fuel : nat) (s : string) :
  (List.length (tokenize (lower s)) <= fuel)%nat ->
  evaluate s = (st <~ scan fuel (tokenize (lower s)) ([], []) ;; Some (finish st)).
Proof.
  intros Hlen. rewrite evaluate_tokens_of.
  rewrite <- (evaluate_tokens_fuel fuel) by exact Hlen.
  now apply evaluate_tokens_finish.
Qed.

Lemma scan_bound {R : Runtime} (fuel : nat) (tokens : list string) ops vals :
  (List.length tokens <= fuel)%nat ->
  scan fuel tokens ([], []) = Some (Ok (ops, vals)) ->
  (List.length ops <= List.length tokens)%nat.
Proof.
  intros Hlen H.
  destruct (scan_terminates fuel tokens [] []) as (r & Hr & Hb);
    [ simpl; lia | ].
  rewrite Hr in H. apply some_eq in H. subst r.
  apply (Hb _ _ eq_refl).
Qed.

Lemma close_paren_first {R : Runtime} (s : string) :
  evaluate (String ")" s)
  = Some (Raise (ValueError "Mismatched parentheses")).
Proof. reflexivity. Qed.

(** X4: when an expression that ends in a close parenthesis has a value,
    the expression without that parenthesis has the same value: the last
    close parenthesis may be left out. *)
Theorem last_close_paren_optional {R : Runtime} (s : string) (v : value) :
  evaluate (s ++ ")") = Some (Ok v) -> evaluate s = Some (Ok v).
Proof.
  set (ts := tokenize (lower s)).
  assert (Hts : tokenize (lower (s ++ ")")) = ts ++ [")"]).
  { rewrite lower_app. now apply tokenize_last_symbol. }
  rewrite (evaluate_scan (S (List.length ts)) (s ++ ")"))
    by (rewrite Hts, length_app; simpl; lia).
  rewrite (evaluate_scan (S (List.length ts)) s) by (fold ts; lia).
  rewrite Hts, scan_app. fold ts.
  destruct (scan (S (List.length ts)) ts ([], []))
    as [[[ops vals]|e]|] eqn:E; cbn [bind_fuel]; try discriminate.
  apply scan_bound in E; [ | lia ].
  cbn [scan].
  destruct (step (S (List.length ts)) ")" (ops, vals))
    as [[st|e]|] eqn:Es; cbn [bind_fuel]; try discriminate.
  intros H. apply some_eq in H. f_equal.
  apply finish_ok. apply finish_ok in H. rewrite <- H. symmetry.
  assert (Hlen : (List.length ops <= S (List.length ts))%nat) by lia.
  pose proof (close_paren_needs_open _ _ _ _ Hlen Es) as Hin.
  destruct (close_paren_then_drain _ _ _ _ Hlen Hin Es) as [Hd _].
  exact Hd.
Qed.

(** X5: parentheses around a whole expression that has a value do not
    change the value. *)
Theorem parentheses_around {R : Runtime} (s : string) (v : value) :
  evaluate s = Some (Ok v) -> evaluate ("(" ++ s ++ ")") = Some (Ok v).
Proof.
  set (ts := tokenize (lower s)).
  assert (Hts : tokenize (lower ("(" ++ s ++ ")")) = "(" :: ts ++ [")"]).
  { change (lower ("(" ++ s ++ ")")) with (String "(" (lower (s ++ ")"))).
    rewrite tokenize_head_symbol by reflexivity.
    rewrite lower_app. change (lower ")") with ")".
    now rewrite tokenize_last_symbol. }
  set (fuel := S (S (List.length ts))).
  rewrite (evaluate_scan fuel s) by (fold ts; unfold fuel; lia).
  rewrite (evaluate_scan fuel ("(" ++ s ++ ")"))
    by (rewrite Hts; simpl; rewrite length_app; simpl; unfold fuel; lia).
  rewrite Hts. fold ts. rewrite scan_cons.
  change (step fuel "(" ([], [])) with (Some (Ok (["("], @nil value))).
  cbn [bind_fuel]. rewrite scan_app.
  destruct (scan fuel ts ([], [])) as [[[ops vals]|e]|] eqn:E;
    cbn [bind_fuel]; try discriminate.
  intros H. apply some_eq in H. apply finish_ok in H. cbn [fst snd] in H.
  assert (Hfuel : (List.length ts <= fuel)%nat) by (unfold fuel; lia).
  pose proof (scan_bound fuel ts ops vals Hfuel E) as Hb.
  apply (scan_frame []) in E. cbn [app] in E. rewrite E. cbn [bind_fuel scan].
  assert (Hlen : (List.length (ops ++ ["("]) <= fuel)%nat)
    by (rewrite length_app; simpl; unfold fuel; lia).
  destruct (step_terminates fuel ")" (ops ++ ["("]) vals Hlen)
    as (r & Hr & _).
  rewrite Hr.
  assert (Hin : In "(" (ops ++ ["("])) by (apply in_or_app; right; now left).
  destruct (close_paren_then_drain _ _ _ _ Hlen Hin Hr) as [Hd _].
  rewrite apply_all_app, H in Hd. cbn [bind apply_all] in Hd.
  rewrite apply_top_open_paren in Hd. cbn [bind] in Hd.
  destruct r as [st|e]; cbn [bind bind_fuel] in *; [ | discriminate ].
  f_equal. now apply finish_ok.
Qed.

(** ** Spaces *)

(** X6: a space changes neither the tokens nor the result, wherever it
    stands, the inside of a number or of a name included. *)
Theorem spaces_ignored {R : Runtime} (s1 s2 : string) :
  tokenize (s1 ++ String " " s2) = tokenize (s1 ++ s2)
  /\ evaluate (s1 ++ String " " s2) = evaluate (s1 ++ s2).
Proof.
  assert (H : forall a b, tokenize (a ++ String " " b) = tokenize (a ++ b)).
  { intros a b. unfold tokenize. now rewrite !remove_spaces_app. }
  split; [ apply H | ].
  rewrite !evaluate_tokens_of, !lower_app.
  change (lower (String " " s2)) with (String " " (lower s2)).
  now rewrite H.
Qed.

(** ** Operands and operators *)

Lemma numeral_lower (n : string) : numeral n = true -> lower n = n.
Proof.
  intros H. destruct (numeral_cases n H)
    as [[Hd Hne]|(d1 & d2 & -> & H1 & H2 & Hne)].
  - now apply lower_digits.
  - rewrite lower_app, (lower_digits d1 H1).
    change (lower ("." ++ d2)) with (String "." (lower d2)).
    now rewrite (lower_digits d2 H2).
Qed.

Lemma numeral_tokenize (n : string) : numeral n = true -> tokenize n = [n].
Proof.
  intros H. rewrite <- (numeral_lower n H) at 1. now apply numeral_tokenized.
Qed.

Lemma operator_symbol (op : ascii) :
  In (String op "") (map fst precedence) ->
  is_symbol op = true /\ lower_char op = op.
Proof.
  simpl. intros H.
  repeat (destruct H as [H|H]; [ injection H as <-; split; reflexivity | ]).
  contradiction.
Qed.

Lemma step_name {R : Runtime} (fuel : nat) (c : string) ops vals :
  In c (functions ++ constants) ->
  step fuel c (ops, vals) = Some (Ok (c :: ops, vals)).
Proof.
  simpl. intros H.
  repeat (destruct H as [<-|H]; [ reflexivity | ]). contradiction.
Qed.

Lemma apply_top_constant {R : Runtime} (c : string) (vals : list value) :
  In c constants ->
  apply_top c vals = Ok (VFloat (constant_value c) :: vals).
Proof.
  simpl. intros H.
  repeat (destruct H as [<-|H]; [ reflexivity | ]). contradiction.
Qed.

(** The tokens of two operands with an operator between them. *)
Lemma tokenize_infix (a b : string) (op : ascii) :
  is_symbol op = true ->
  tokenize a = [a] -> tokenize b = [b] ->
  tokenize (a ++ String op b) = [a; String op ""; b].
Proof.
  intros Hop Ha Hb. rewrite (tokenize_symbol_between a b op Hop), Ha, Hb.
  reflexivity.
Qed.

(** X7: two number literals with an operator of the table between them
    evaluate to the operator applied to the two floats, the first as the
    left operand. *)
Theorem binary_expression {R : Runtime} (a b : string) (op : ascii) :
  numeral a = true -> numeral b = true ->
  In (String op "") (map fst precedence) ->
  evaluate (a ++ String op b)
  = Some (binary (String op "") (VFloat (float_of_token a))
            (VFloat (float_of_token b))).
Proof.
  intros Ha Hb Hop. destruct (operator_symbol op Hop) as [Hs Hl].
  rewrite evaluate_tokens_of, lower_app. cbn [lower]. rewrite Hl.
  rewrite (numeral_lower a Ha), (numeral_lower b Hb).
  rewrite (tokenize_infix a b op Hs (numeral_tokenize a Ha)
             (numeral_tokenize b Hb)).
  apply numeral_is_number in Ha, Hb.
  cbn [List.length]. unfold evaluate_tokens. run.
  destruct (binary _ _ _) as [v|e]; reflexivity.
Qed.

Lemma binary_expression_witness :
  @evaluate test_runtime "7.5-2"
  = Some (Ok (VFloat 5.5)).
Proof.
  exact (eq_trans
           (@binary_expression test_runtime "7.5" "2" "-"
              eq_refl eq_refl (or_intror (or_introl eq_refl)))
           eq_refl).
Defined.

(** X8: a constant works as the right operand of an operator and not as
    the left one: [c op n] fails for want of operands, [n op c] is the
    operator applied to the number and the constant. *)
Theorem constant_operand_side {R : Runtime} (c n : string) (op : ascii) :
  In c constants -> numeral n = true ->
  In (String op "") (map fst precedence) ->
  evaluate (c ++ String op n)
  = Some (Raise (ValueError
                   ("Not enough operands for operator: " ++ String op "")))
  /\ evaluate (n ++ String op c)
     = Some (binary (String op "") (VFloat (float_of_token n))
               (VFloat (constant_value c))).
Proof.
  intros Hc Hn Hop. destruct (operator_symbol op Hop) as [Hs Hl].
  assert (Hct : tokenize c = [c] /\ lower c = c).
  { simpl in Hc. repeat (destruct Hc as [<-|Hc]; [ split; reflexivity | ]).
    contradiction. }
  destruct Hct as [Hct Hcl].
  assert (Hname : In c (functions ++ constants))
    by (apply in_or_app; now right).
  pose proof (numeral_is_number n Hn) as Hnum.
  split.
  - rewrite evaluate_tokens_of, lower_app. cbn [lower]. rewrite Hl, Hcl.
    rewrite (numeral_lower n Hn).
    rewrite (tokenize_infix c n op Hs Hct (numeral_tokenize n Hn)).
    cbn [List.length]. unfold evaluate_tokens.
    rewrite scan_cons, (step_name _ c) by exact Hname. cbn [bind_fuel].
    rewrite scan_cons, step_operator by exact Hop.
    rewrite while_apply_done.
    2:{ cbn [fst outranks top_is]. simpl in Hc.
        repeat (destruct Hc as [<-|Hc]; [ reflexivity | ]). contradiction. }
    run. now rewrite apply_top_one_operand.
  - rewrite evaluate_tokens_of, lower_app. cbn [lower]. rewrite Hl, Hcl.
    rewrite (numeral_lower n Hn).
    rewrite (tokenize_infix n c op Hs (numeral_tokenize n Hn) Hct).
    cbn [List.length]. unfold evaluate_tokens. run.
    rewrite (step_name _ c) by exact Hname. run.
    rewrite (apply_top_constant c) by exact Hc. run.
    destruct (binary _ _ _) as [v|e]; reflexivity.
Qed.

Lemma constant_operand_side_witness :
  @evaluate test_runtime "pi*2"
  = Some (Raise (ValueError "Not enough operands for operator: *"))
  /\ @evaluate test_runtime "2*pi"
     = Some (Ok (VFloat (2 * math_pi))).
Proof.
  destruct (@constant_operand_side test_runtime "pi" "2" "*") as [H1 H2];
    [ simpl; tauto | reflexivity | simpl; tauto | ].
  split; [ exact H1 | exact H2 ].
Defined.

(** The scan of numbers alone pushes them on the operand stack. *)
Lemma scan_numbers {R : Runtime} (fuel : nat) (tokens : list string) :
  Forall (fun t => is_number t = true) tokens ->
  forall ops vals,
    scan fuel tokens (ops, vals)
    = Some (Ok (ops, rev (map (fun t => VFloat (float_of_token t)) tokens)
                       ++ vals)).
Proof.
  induction 1 as [|t ts Ht _ IH]; intros ops vals; [ reflexivity | ].
  rewrite scan_cons, step_number by exact Ht. cbn [bind_fuel].
  rewrite IH. cbn [map rev]. now rewrite <- app_assoc.
Qed.

(** X9: when all the tokens are numbers, the result is that number if there
    is exactly one, and [Invalid expression] otherwise; the empty
    expression is such a case. *)
Theorem operands_only {R : Runtime} (s : string) :
  Forall (fun t => is_number t = true) (tokenize (lower s)) ->
  evaluate s
  = Some (match tokenize (lower s) with
          | [n] => Ok (VFloat (float_of_token n))
          | _ => Raise (ValueError "Invalid expression")
          end).
Proof.
  intros H. rewrite evaluate_tokens_of. unfold evaluate_tokens.
  rewrite (scan_numbers _ _ H). cbn [bind_fuel].
  rewrite while_apply_done by reflexivity. cbn [bind_fuel snd].
  rewrite app_nil_r.
  destruct (tokenize (lower s)) as [|a [|b ts]]; [ reflexivity | reflexivity | ].
  cbn [map rev]. rewrite <- !app_assoc. cbn [app].
  destruct (rev (map (fun t => VFloat (float_of_token t)) ts)) as [|x [|y l]];
    reflexivity.
Qed.

Lemma operands_only_witness :
  @evaluate test_runtime "" = Some (Raise (ValueError "Invalid expression"))
  /\ @evaluate test_runtime "1 2" = Some (Ok (VFloat 12))
  /\ @evaluate test_runtime "1,2"
     = Some (Raise (ValueError "Invalid expression")).
Proof.
  split; [ | split ].
  - exact (eq_trans (@operands_only test_runtime "" (Forall_nil _)) eq_refl).
  - refine (eq_trans (@operands_only test_runtime "1 2" _) eq_refl).
    repeat constructor.
  - refine (eq_trans (@operands_only test_runtime "1,2" _) eq_refl).
    repeat constructor.
Defined.

(** ** A function name below the entries in use *)

Section FrameName.

Context {R : Runtime}.

Variable f : string.
Hypothesis f_function : In f functions.

Lemma function_not_open_paren : (f =? "(") = false.
Proof.
  pose proof f_function as H. simpl in H.
  repeat (destruct H as [<-|H]; [ reflexivity | ]). contradiction.
Qed.

Lemma function_not_operator : in_precedence f = false.
Proof.
  pose proof f_function as H. simpl in H.
  repeat (destruct H as [<-|H]; [ reflexivity | ]). contradiction.
Qed.

Lemma outranks_frame_name (token : string) (fuel : nat) :
  forall ops vals ops' vals',
    while_apply (outranks token) fuel (ops, vals) = Some (Ok (ops', vals')) ->
    while_apply (outranks token) fuel (ops ++ [f], vals)
    = Some (Ok (ops' ++ [f], vals')).
Proof.
  unfold outranks.
  induction fuel as [|fuel IH]; intros ops vals ops' vals'.
  - rewrite while_apply_O. cbn [fst].
    destruct (top_is _ ops) eqn:Ec; [ discriminate | ].
    intros H. apply some_eq in H. injection H as <- <-.
    apply while_apply_done. cbn [fst].
    destruct ops; [ | exact Ec ].
    cbn [app top_is]. rewrite function_not_operator.
    now destruct (negb _).
  - rewrite !while_apply_S. cbn [fst].
    destruct ops as [|op ops].
    + cbn [top_is]. intros H. apply some_eq in H. injection H as <- <-.
      cbn [app top_is]. rewrite function_not_operator.
      now destruct (negb _).
    + cbn [app top_is].
      destruct (negb (op =? "(") && in_precedence op
                && (precedence_get token <=? precedence_get op)%nat).
      * rewrite !apply_operator_top.
        destruct (apply_top op vals) as [vals1|e]; cbn [bind bind_fuel];
          [ apply IH | discriminate ].
      * intros H. apply some_eq in H. now injection H as <- <-.
Qed.

Lemma step_frame_name (fuel : nat) (token : string) ops vals ops' vals' :
  token <> ")" ->
  step fuel token (ops, vals) = Some (Ok (ops', vals')) ->
  step fuel token (ops ++ [f], vals) = Some (Ok (ops' ++ [f], vals')).
Proof.
  intros Hne. unfold step, token_branch.
  destruct (is_number token);
    [ intros H; apply some_eq in H; now injection H as <- <- | ].
  destruct (member token (functions ++ constants));
    [ intros H; apply some_eq in H; now injection H as <- <- | ].
  destruct (token =? "(");
    [ intros H; apply some_eq in H; now injection H as <- <- | ].
  destruct (token =? ")") eqn:Ec; [ now apply String.eqb_eq in Ec | ].
  destruct (substring_of token "+-*/^%"); [ | discriminate ].
  destruct (while_apply (outranks token) fuel (ops, vals))
    as [[[ops1 vals1]|e]|] eqn:E; try discriminate.
  rewrite (outranks_frame_name _ _ _ _ _ _ E). cbn [bind_fuel fst snd].
  intros H. apply some_eq in H. now injection H as <- <-.
Qed.

Lemma scan_frame_name (fuel : nat) (tokens : list string) :
  Forall (fun token => token <> ")") tokens ->
  forall ops vals ops' vals',
    scan fuel tokens (ops, vals) = Some (Ok (ops', vals')) ->
    scan fuel tokens (ops ++ [f], vals) = Some (Ok (ops' ++ [f], vals')).
Proof.
  induction 1 as [|token tokens Hne _ IH]; intros ops vals ops' vals'.
  - intros H. apply some_eq in H. now injection H as <- <-.
  - rewrite !scan_cons.
    destruct (step fuel token (ops, vals)) as [[[ops1 vals1]|e]|] eqn:E;
      try discriminate.
    rewrite (step_frame_name _ _ _ _ _ _ Hne E). cbn [bind_fuel]. apply IH.
Qed.

Lemma tokenize_function_first (s : string) :
  tokenize (lower (f ++ s)) = f :: tokenize (lower s).
Proof.
  rewrite lower_app. unfold tokenize. rewrite remove_spaces_app.
  pose proof f_function as H. simpl in H.
  repeat (destruct H as [<-|H];
          [ destruct (remove_spaces (lower s)); reflexivity | ]).
  contradiction.
Qed.

End FrameName.

(** X10: a function name written without parentheses takes the value of
    all that follows it: when the rest has no close parenthesis and
    evaluates to [v], the whole evaluates to the function at [v]. *)
Theorem function_without_parentheses {R : Runtime} (f s : string) (v : value) :
  In f functions ->
  Forall (fun token => token <> ")") (tokenize (lower s)) ->
  evaluate s = Some (Ok v) ->
  evaluate (f ++ s) = Some (call f v).
Proof.
  intros Hf Hs. set (ts := tokenize (lower s)) in *.
  set (fuel := S (List.length ts)).
  rewrite (evaluate_scan fuel s) by (fold ts; unfold fuel; lia).
  rewrite (evaluate_scan fuel (f ++ s))
    by (rewrite (tokenize_function_first f Hf); fold ts; simpl;
        unfold fuel; lia).
  rewrite (tokenize_function_first f Hf). fold ts. rewrite scan_cons.
  rewrite (step_name fuel f) by (apply in_or_app; now left).
  cbn [bind_fuel].
  destruct (scan fuel ts ([], [])) as [[[ops vals]|e]|] eqn:E;
    cbn [bind_fuel]; try discriminate.
  intros H. apply some_eq in H. apply finish_ok in H. cbn [fst snd] in H.
  apply (scan_frame_name f Hf fuel ts Hs) in E. cbn [app] in E.
  rewrite E. cbn [bind_fuel]. f_equal.
  unfold finish, call. cbn [fst snd].
  rewrite apply_all_app, H. cbn [bind apply_all].
  destruct (apply_top f [v]) as [vals1|e]; reflexivity.
Qed.

Lemma function_without_parentheses_witness :
  @evaluate test_runtime "sqrt 9 + 16" = Some (Ok (VFloat 5)).
Proof.
  refine (eq_trans
            (@function_without_parentheses test_runtime "sqrt" " 9 + 16"
               (VFloat 25) _ _ eq_refl) eq_refl).
  - simpl; tauto.
  - repeat constructor; discriminate.
Defined.

(** ** What the operator stack holds *)

Section StackEntries.

Context {R : Runtime}.

(** A property of the entries. *)
Variable P : string -> Prop.

Local Abbreviation entries := (Forall P).

Lemma while_apply_entries (cond : list string -> bool) (fuel : nat) :
  forall ops vals ops' vals',
    entries ops ->
    while_apply cond fuel (ops, vals) = Some (Ok (ops', vals')) ->
    entries ops'.
Proof.
  induction fuel as [|fuel IH]; intros ops vals ops' vals' He.
  - rewrite while_apply_O. destruct (cond _); [ discriminate | ].
    intros H. apply some_eq in H. now injection H as <- <-.
  - rewrite while_apply_S. destruct (cond _).
    + cbn [fst]. destruct ops as [|op ops].
      * destruct (apply_operator ([], vals)) as [[ops1 vals1]|e] eqn:E;
          cbn [bind_fuel]; [ | discriminate ].
        assert (ops1 = []) as ->.
        { unfold apply_operator in E. cbn in E. now injection E as <- <-. }
        now apply IH.
      * destruct (apply_operator (op :: ops, vals)) as [[ops1 vals1]|e] eqn:E;
          cbn [bind_fuel]; [ | discriminate ].
        apply apply_operator_pops in E as ->.
        apply IH. now inversion He.
    + intros H. apply some_eq in H. now injection H as <- <-.
Qed.

(** The only entry that a step adds is its token. *)
Lemma step_entries (fuel : nat) (token : string) ops vals ops' vals' :
  (pushed token = true -> P token) -> entries ops ->
  step fuel token (ops, vals) = Some (Ok (ops', vals')) ->
  entries ops'.
Proof.
  intros Hp He. unfold pushed in Hp. unfold step.
  destruct (token_branch token).
  - intros H; apply some_eq in H; now injection H as <- <-.
  - intros H; apply some_eq in H; injection H as <- <-.
    constructor; [ now apply Hp | exact He ].
  - intros H; apply some_eq in H; injection H as <- <-.
    constructor; [ now apply Hp | exact He ].
  - destruct (while_apply until_open_paren fuel (ops, vals))
      as [[[ops1 vals1]|e]|] eqn:E; cbn [bind_fuel]; try discriminate.
    apply while_apply_entries in E; [ | exact He ].
    destruct (top_is _ ops1); [ | discriminate ].
    assert (He1 : entries (tl ops1))
      by (destruct ops1; [ constructor | now inversion E ]).
    destruct (top_is _ (tl ops1)).
    + destruct (tl ops1) as [|op ops2].
      * intros H. apply some_eq in H. unfold apply_operator in H. cbn in H.
        injection H as <- <-. constructor.
      * intros H. apply some_eq in H. apply apply_operator_pops in H as ->.
        now inversion He1.
    + intros H. apply some_eq in H. now injection H as <- <-.
  - destruct (while_apply (outranks token) fuel (ops, vals))
      as [[[ops1 vals1]|e]|] eqn:E; cbn [bind_fuel]; try discriminate.
    apply while_apply_entries in E; [ | exact He ].
    intros H; apply some_eq in H; injection H as <- <-.
    constructor; [ now apply Hp | exact E ].
  - discriminate.
Qed.

Lemma scan_entries (fuel : nat) (tokens : list string) :
  Forall (fun token => pushed token = true -> P token) tokens ->
  forall ops vals ops' vals',
    entries ops ->
    scan fuel tokens (ops, vals) = Some (Ok (ops', vals')) ->
    entries ops'.
Proof.
  induction 1 as [|token tokens Hp _ IH]; intros ops vals ops' vals' He.
  - intros H. apply some_eq in H. now injection H as <- <-.
  - rewrite scan_cons.
    destruct (step fuel token (ops, vals)) as [[[ops1 vals1]|e]|] eqn:E;
      cbn [bind_fuel]; try discriminate.
    apply IH. exact (step_entries _ _ _ _ _ _ Hp He E).
Qed.

End StackEntries.

Lemma lexeme_pushed (s token : string) :
  lexeme s token -> pushed token = true -> stack_entry token = true.
Proof.
  unfold pushed. intros H. destruct H as [rest H|rest H|rest H|Hin _].
  - apply match_decimal_shape in H as (d1 & d2 & -> & H1 & H2 & Hne & _).
    unfold token_branch.
    rewrite (is_number_decimal d1 d2 H1 H2 Hne). discriminate.
  - apply match_integer_shape in H as (Hd & Hne & _).
    unfold token_branch.
    rewrite (is_number_integer token Hd Hne). discriminate.
  - apply match_symbol_shape in H as (c & -> & Hc & _).
    apply is_symbol_cases in Hc. simpl in Hc.
    repeat (destruct Hc as [<-|Hc];
            [ first [ intros _; reflexivity | intros Hb; discriminate Hb ] | ]).
    contradiction.
  - simpl in Hin.
    repeat (destruct Hin as [<-|Hin]; [ intros _; reflexivity | ]).
    contradiction.
Qed.

(** X11: whatever part of the tokens has been scanned, the operator stack
    holds only function names, constants, open parentheses and operators
    of the table, so [apply_operator] never meets an operator it does not
    know. *)
Theorem operator_stack_entries {R : Runtime} (expression : string)
    (seen rest : list string) (fuel : nat) (ops : list string)
    (vals : list value) :
  tokenize (lower expression) = seen ++ rest ->
  scan fuel seen ([], []) = Some (Ok (ops, vals)) ->
  Forall (fun op => stack_entry op = true) ops.
Proof.
  intros Ht Hs.
  apply (scan_entries (fun op => stack_entry op = true) fuel seen)
    with (3 := Hs); [ | constructor ].
  assert (H : Forall (fun token => pushed token = true
                                   -> stack_entry token = true)
                (tokenize (lower expression))).
  { unfold tokenize. apply findall_lexemes. exact lexeme_pushed. }
  rewrite Ht in H. now apply Forall_app in H.
Qed.

Lemma operator_stack_entries_witness :
  Forall (fun op => stack_entry op = true) ["*"; "("; "sin"].
Proof.
  exact (@operator_stack_entries test_runtime "sin(2*3)"
           ["sin"; "("; "2"; "*"] ["3"; ")"] 6 ["*"; "("; "sin"]
           [VFloat 2] eq_refl eq_refl).
Defined.

(** ** The tokenizer, at a symbol *)

(** X12: a symbol is always a token of its own and the text on its two
    sides is tokenized separately. *)
Theorem tokenize_splits_at_symbol (s1 s2 : string) (c : ascii) :
  is_symbol c = true ->
  tokenize (s1 ++ String c s2) = tokenize s1 ++ String c "" :: tokenize s2.
Proof. exact (tokenize_symbol_between s1 s2 c). Qed.

Lemma tokenize_splits_at_symbol_witness :
  tokenize "si*n" = ["*"].
Proof.
  exact (eq_trans (tokenize_splits_at_symbol "si" "n" "*" eq_refl) eq_refl).
Defined.

Lemma last_close_paren_optional_witness :
  @evaluate test_runtime "2*(1+2" = Some (Ok (VFloat 6)).
Proof.
  exact (@last_close_paren_optional test_runtime "2*(1+2" (VFloat 6) eq_refl).
Defined.

Lemma parentheses_around_witness :
  @evaluate test_runtime "(1+2*3)" = Some (Ok (VFloat 7)).
Proof.
  exact (@parentheses_around test_runtime "1+2*3" (VFloat 7) eq_refl).
Defined.

(** ** convert_units *)

Module ConvertFacts.

Import Convert.

(** Decide the comparisons of the goal that are between two literals. *)
Ltac literal_tests :=
  repeat match goal with
    | |- context [String.eqb ?x ?y] =>
        let v := eval vm_compute in (String.eqb x y) in
        (unify v true + unify v false); change (String.eqb x y) with v
    end;
  cbv iota.

(** Split on the comparisons of [x] with the literals of the goal. *)
Ltac unit_cases x :=
  repeat (literal_tests; cbn [dict_get find_conversion negb andb orb];
          match goal with
          | |- context [String.eqb x ?k] =>
              destruct (String.eqb_spec x k) as [->|?]
          end);
  literal_tests; cbn [dict_get find_conversion negb andb orb].

Lemma find_conversion_convertible (from_unit to_unit : string) :
  match find_conversion [temperature; length; weight] from_unit to_unit with
  | Some _ => true
  | None => false
  end = convertible from_unit to_unit.
Proof.
  unfold convertible, units, member, temperature, length, weight.
  cbn [find_conversion dict_get map fst existsb].
  unit_cases from_unit; unit_cases to_unit;
    rewrite ?andb_false_r; reflexivity.
Qed.

End ConvertFacts.

(** X13: [convert_units] returns a number exactly for two different units
    of one dictionary (temperature, length or weight); for every other
    pair, equal units included, it raises the [ValueError] that names the
    two units. *)
Theorem convert_units_defined (value : float) (from_unit to_unit : string) :
  (Convert.convertible from_unit to_unit = true ->
   exists r, Convert.convert_units value from_unit to_unit = Ok r)
  /\ (Convert.convertible from_unit to_unit = false ->
      Convert.convert_units value from_unit to_unit
      = Raise (ValueError
                 ("Cannot convert from " ++ from_unit ++ " to " ++ to_unit)))
  /\ Convert.convertible from_unit from_unit = false.
Proof.
  pose proof (ConvertFacts.find_conversion_convertible from_unit to_unit) as H.
  unfold Convert.convert_units.
  destruct (Convert.find_conversion _ from_unit to_unit) as [f|];
    rewrite <- H; repeat split; try discriminate; eauto.
  all: unfold Convert.convertible; now rewrite String.eqb_refl.
Qed.

(** ** The effect of an entry on the operand stack *)

(** Split on the tests and the calls of [apply_operator] for a function. *)
Ltac function_cases :=
  repeat (simpl;
    match goal with
    | |- context [match ?v with [] => _ | _ :: _ => _ end] =>
        is_var v; destruct v
    | |- context [bind (math_call ?f ?v) _] => destruct (math_call f v)
    | |- context [bind (py_lt0 ?v) _] => destruct (py_lt0 v) as [[|]|]
    | |- context [bind (py_le0 ?v) _] => destruct (py_le0 v) as [[|]|]
    | |- context [bind (py_abs ?v) _] => destruct (py_abs v)
    end).

Section StackEffect.

Context {R : Runtime}.

Lemma member_In (x : string) (t : list string) : member x t = true -> In x t.
Proof.
  unfold member. intros H. apply existsb_exists in H as (y & Hy & He).
  apply String.eqb_eq in He. now subst.
Qed.

Lemma apply_top_function (f : string) (vals vals' : list value) :
  In f functions -> apply_top f vals = Ok vals' ->
  exists v r kept, vals = v :: kept /\ vals' = r :: kept.
Proof.
  simpl. intros H.
  repeat (destruct H as [<-|H];
          [ unfold apply_top, apply_operator; function_cases;
            intros E; try discriminate E; injection E as <-;
            eauto | ]).
  contradiction.
Qed.

Lemma apply_top_operator (op : string) (vals vals' : list value) :
  In op (map fst precedence) -> apply_top op vals = Ok vals' ->
  exists r l v kept,
    vals = r :: l :: kept /\ vals' = v :: kept /\ binary op l r = Ok v.
Proof.
  intros H. destruct vals as [|r [|l kept]].
  - simpl in H.
    repeat (destruct H as [<-|H]; [ discriminate | ]). contradiction.
  - rewrite apply_top_one_operand by exact H. discriminate.
  - rewrite apply_top_binary by exact H.
    destruct (binary op l r) as [v|e] eqn:Eb; cbn [bind]; [ | discriminate ].
    intros E. injection E as <-. exists r, l, v, kept. now repeat split.
Qed.

End StackEffect.

(** X14: an entry of the operator stack that is applied with success pops
    its operands from the top of the operand stack (one for a function,
    two for an operator, none for a constant or a parenthesis), pushes one
    result (none for a parenthesis) and leaves what lies below as it was. *)
Theorem operand_stack_effect {R : Runtime} (op : string)
    (vals vals' : list value) :
  stack_entry op = true ->
  apply_top op vals = Ok vals' ->
  exists used made kept,
    vals = used ++ kept /\ vals' = made ++ kept
    /\ List.length used = takes op /\ List.length made = gives op.
Proof.
  intros He H. apply member_In in He.
  apply in_app_or in He as [Hf|He];
    [ | apply in_app_or in He as [Hc|He];
        [ | apply in_app_or in He as [Hp|Ho] ] ].
  - destruct (apply_top_function op vals vals' Hf H) as (v & r & kept & -> & ->).
    exists [v], [r], kept. repeat split.
    + simpl in Hf. repeat (destruct Hf as [<-|Hf]; [ reflexivity | ]).
      contradiction.
    + simpl in Hf. repeat (destruct Hf as [<-|Hf]; [ reflexivity | ]).
      contradiction.
  - rewrite (apply_top_constant op vals Hc) in H. injection H as <-.
    exists [], [VFloat (constant_value op)], vals. repeat split.
    + simpl in Hc. repeat (destruct Hc as [<-|Hc]; [ reflexivity | ]).
      contradiction.
    + simpl in Hc. repeat (destruct Hc as [<-|Hc]; [ reflexivity | ]).
      contradiction.
  - destruct Hp as [<-|[]]. rewrite apply_top_open_paren in H.
    injection H as <-. exists [], [], vals. repeat split.
  - destruct (apply_top_operator op vals vals' Ho H)
      as (r & l & v & kept & -> & -> & _).
    exists [r; l], [v], kept. repeat split.
    + simpl in Ho. repeat (destruct Ho as [<-|Ho]; [ reflexivity | ]).
      contradiction.
    + simpl in Ho. repeat (destruct Ho as [<-|Ho]; [ reflexivity | ]).
      contradiction.
Qed.

Lemma operand_stack_effect_witness :
  exists used made kept,
    [VFloat 3; VFloat 2; VFloat 1] = used ++ kept
    /\ [VFloat 5; VFloat 1] = made ++ kept
    /\ List.length used = 2%nat /\ List.length made = 1%nat.
Proof.
  exact (@operand_stack_effect test_runtime "+"
           [VFloat 3; VFloat 2; VFloat 1] [VFloat 5; VFloat 1]
           eq_refl eq_refl).
Defined.

(** ** A close parenthesis that nothing opens *)

Lemma scan_no_open_paren {R : Runtime} (fuel : nat) (tokens : list string)
    (ops : list string) (vals : list value) :
  Forall (fun token => token <> "(") tokens ->
  scan fuel tokens ([], []) = Some (Ok (ops, vals)) ->
  ~ In "(" ops.
Proof.
  intros Ht Hs Hin.
  assert (H : Forall (fun op => op <> "(") ops).
  { apply (scan_entries (fun op => op <> "(") fuel tokens) with (3 := Hs);
      [ | constructor ].
    eapply Forall_impl; [ | exact Ht ]. auto. }
  rewrite Forall_forall in H. now apply (H "(").
Qed.

(** X3: an expression with a close parenthesis before any open one has no
    value: [evaluate] raises, and what it raises is
    [Mismatched parentheses] when no token precedes that parenthesis. *)
Theorem close_paren_unopened {R : Runtime} (s1 s2 : string) :
  Forall (fun token => token <> "(") (tokenize (lower s1)) ->
  exists e,
    evaluate (s1 ++ String ")" s2) = Some (Raise e)
    /\ (tokenize (lower s1) = [] -> e = ValueError "Mismatched parentheses").
Proof.
  intros Hs. set (ts := tokenize (lower s1)) in *.
  set (tokens := tokenize (lower (s1 ++ String ")" s2))).
  assert (Ht : tokens = ts ++ ")" :: tokenize (lower s2)).
  { unfold tokens. rewrite lower_app.
    change (lower (String ")" s2)) with (String ")" (lower s2)).
    now apply tokenize_symbol_between. }
  rewrite evaluate_tokens_of. fold tokens.
  set (fuel := List.length tokens).
  assert (Hfuel : (List.length ts < fuel)%nat)
    by (unfold fuel; rewrite Ht, length_app; simpl; lia).
  unfold evaluate_tokens. rewrite Ht, scan_app.
  destruct (scan_terminates fuel ts [] []) as (r & Hr & Hb);
    [ simpl; lia | ].
  rewrite Hr. destruct r as [[ops vals]|e]; cbn [bind_fuel].
  - specialize (Hb ops vals eq_refl). simpl in Hb.
    pose proof (scan_no_open_paren fuel ts ops vals Hs Hr) as Hno.
    rewrite scan_cons.
    assert (Hlen : (List.length ops <= fuel)%nat) by lia.
    destruct (step_terminates fuel ")" ops vals Hlen) as (r2 & Hr2 & _).
    rewrite Hr2. destruct r2 as [st|e]; cbn [bind_fuel].
    + exfalso. apply Hno. exact (close_paren_needs_open _ _ _ _ Hlen Hr2).
    + exists e. split; [ reflexivity | ].
      intros Hnil. rewrite Hnil in Hr. apply some_eq in Hr.
      injection Hr as <- <-.
      assert (Hstep : forall f,
                 step f ")" ([], [])
                 = Some (Raise (ValueError "Mismatched parentheses")))
        by (intros f; destruct f; reflexivity).
      rewrite Hstep in Hr2. apply some_eq in Hr2. now injection Hr2 as <-.
  - exists e. split; [ reflexivity | ].
    intros Hnil. rewrite Hnil in Hr. discriminate.
Qed.

Lemma close_paren_unopened_witness :
  exists e,
    @evaluate test_runtime "1+2)*(3" = Some (Raise e)
    /\ (tokenize (lower "1+2") = [] -> e = ValueError "Mismatched parentheses").
Proof.
  refine (@close_paren_unopened test_runtime "1+2" "*(3" _).
  repeat constructor; discriminate.
Defined.

(** ** A function without an operand *)

(** X15: a function name alone, or followed by empty parentheses, fails
    with [Not enough operands for] and the name. *)
Theorem function_needs_operand {R : Runtime} (f : string) :
  In f functions ->
  evaluate f = Some (Raise (ValueError ("Not enough operands for " ++ f)))
  /\ evaluate (f ++ "()")
     = Some (Raise (ValueError ("Not enough operands for " ++ f))).
Proof.
  simpl. intros H.
  repeat (destruct H as [<-|H]; [ split; reflexivity | ]). contradiction.
Qed.

Lemma function_needs_operand_witness :
  @evaluate test_runtime "sqrt"
  = Some (Raise (ValueError "Not enough operands for sqrt"))
  /\ @evaluate test_runtime "sqrt()"
     = Some (Raise (ValueError "Not enough operands for sqrt")).
Proof.
  refine (@function_needs_operand test_runtime "sqrt" _). simpl; tauto.
Defined.

(** * The loops without fuel *)

Section Pure.

Context {R : Runtime}.

Lemma bind_assoc {A B C : Type} (r : result A) (f : A -> result B)
    (g : B -> result C) :
  (y <- (x <- r ;; f x) ;; g y) = (x <- r ;; y <- f x ;; g y).
Proof. destruct r; reflexivity. Qed.

Lemma while_apply_spec (p : string -> bool) :
  forall ops fuel vals,
    (List.length ops <= fuel)%nat ->
    while_apply (top_is p) fuel (ops, vals) = Some (apply_while p ops vals).
Proof.
  induction ops as [|op ops IH]; intros fuel vals Hlen.
  - now apply while_apply_done.
  - cbn [apply_while]. destruct (p op) eqn:Ep.
    + destruct fuel as [|fuel]; [ simpl in Hlen; lia | ].
      rewrite while_apply_S. cbn [fst top_is]. rewrite Ep.
      rewrite apply_operator_top.
      destruct (apply_top op vals) as [vals1|e]; cbn [bind bind_fuel];
        [ | reflexivity ].
      apply IH. simpl in Hlen. lia.
    + apply while_apply_done. cbn [fst top_is]. exact Ep.
Qed.

Lemma apply_while_length (p : string -> bool) :
  forall ops vals ops' vals',
    apply_while p ops vals = Ok (ops', vals') ->
    (List.length ops' <= List.length ops)%nat.
Proof.
  induction ops as [|op ops IH]; intros vals ops' vals'; cbn [apply_while].
  - intros [= <- <-]. lia.
  - destruct (p op).
    + destruct (apply_top op vals) as [vals1|e]; cbn [bind]; [ | discriminate ].
      intros H. apply IH in H. simpl. lia.
    + intros [= <- <-]. lia.
Qed.

Lemma step_spec (fuel : nat) (token : string) ops vals :
  (List.length ops <= fuel)%nat ->
  step fuel token (ops, vals) = Some (step_pure token (ops, vals)).
Proof.
  intros Hlen. unfold step, step_pure, until_open_paren, outranks.
  destruct (token_branch token); try reflexivity.
  - rewrite (while_apply_spec (fun top => negb (top =? "("))) by exact Hlen.
    unfold not_open_paren.
    destruct (apply_while _ ops vals) as [[ops1 vals1]|e];
      cbn [bind bind_fuel]; [ | reflexivity ].
    destruct (top_is _ ops1); [ | reflexivity ].
    destruct (top_is _ (tl ops1)); reflexivity.
  - rewrite (while_apply_spec
               (fun top => negb (top =? "(") && in_precedence top
                           && (precedence_get token <=? precedence_get top)%nat))
      by exact Hlen.
    unfold outranking.
    destruct (apply_while _ ops vals) as [[ops1 vals1]|e]; reflexivity.
Qed.

Lemma step_pure_length (token : string) ops vals ops' vals' :
  step_pure token (ops, vals) = Ok (ops', vals') ->
  (List.length ops' <= S (List.length ops))%nat.
Proof.
  unfold step_pure. destruct (token_branch token).
  - intros [= <- <-]. lia.
  - intros [= <- <-]. simpl. lia.
  - intros [= <- <-]. simpl. lia.
  - destruct (apply_while _ ops vals) as [[ops1 vals1]|e] eqn:E; cbn [bind];
      [ | discriminate ].
    apply apply_while_length in E.
    destruct (top_is _ ops1); [ | discriminate ].
    destruct ops1 as [|top ops1]; cbn [tl top_is].
    + intros [= <- <-]. simpl. lia.
    + destruct ops1 as [|f ops1]; cbn [top_is].
      * intros [= <- <-]. simpl. lia.
      * destruct (member f functions).
        -- intros H. apply apply_operator_pops in H as ->. simpl in *. lia.
        -- intros [= <- <-]. simpl in *. lia.
  - destruct (apply_while _ ops vals) as [[ops1 vals1]|e] eqn:E; cbn [bind];
      [ | discriminate ].
    apply apply_while_length in E. intros [= <- <-]. simpl. lia.
  - discriminate.
Qed.

Lemma scan_pure_length (tokens : list string) :
  forall ops vals ops' vals',
    scan_pure tokens (ops, vals) = Ok (ops', vals') ->
    (List.length ops' <= List.length ops + List.length tokens)%nat.
Proof.
  induction tokens as [|token tokens IH]; intros ops vals ops' vals';
    cbn [scan_pure].
  - intros [= <- <-]. lia.
  - destruct (step_pure token (ops, vals)) as [[ops1 vals1]|e] eqn:E;
      cbn [bind]; [ | discriminate ].
    apply step_pure_length in E. intros H. apply IH in H. simpl. lia.
Qed.

Lemma scan_spec (tokens : list string) :
  forall fuel ops vals,
    (List.length ops + List.length tokens <= fuel)%nat ->
    scan fuel tokens (ops, vals) = Some (scan_pure tokens (ops, vals)).
Proof.
  induction tokens as [|token tokens IH]; intros fuel ops vals Hlen;
    [ reflexivity | ].
  rewrite scan_cons, step_spec by lia. cbn [scan_pure bind_fuel].
  destruct (step_pure token (ops, vals)) as [[ops1 vals1]|e] eqn:E;
    cbn [bind]; [ | reflexivity ].
  apply step_pure_length in E. apply IH. simpl in Hlen. lia.
Qed.

Lemma evaluate_tokens_spec (tokens : list string) :
  evaluate_tokens (List.length tokens) tokens = Some (evaluate_pure tokens).
Proof.
  unfold evaluate_tokens, evaluate_pure.
  rewrite scan_spec by (simpl; lia).
  destruct (scan_pure tokens ([], [])) as [[ops vals]|e] eqn:E;
    cbn [bind bind_fuel]; [ | reflexivity ].
  apply scan_pure_length in E. simpl in E. unfold not_empty.
  rewrite (while_apply_spec (fun _ => true)) by exact E.
  cbn [fst snd]. unfold any_entry.
  destruct (apply_while _ ops vals) as [[ops1 vals1]|e]; cbn [bind bind_fuel];
    [ | reflexivity ].
  cbn [snd]. destruct vals1 as [|v [|? ?]]; reflexivity.
Qed.

Lemma evaluate_spec (s : string) :
  evaluate s = Some (evaluate_pure (tokenize (lower s))).
Proof. rewrite evaluate_tokens_of. apply evaluate_tokens_spec. Qed.

Lemma scan_pure_app (ts1 ts2 : list string) :
  forall st,
    scan_pure (ts1 ++ ts2) st = (st' <- scan_pure ts1 st ;; scan_pure ts2 st').
Proof.
  induction ts1 as [|t ts1 IH]; intros st; [ reflexivity | ].
  cbn [app scan_pure].
  destruct (step_pure t st) as [st1|e]; cbn [bind]; [ apply IH | reflexivity ].
Qed.

End Pure.

(** * Scanning an expression *)

Section Expressions.

Context {R : Runtime}.

Lemma in_precedence_In (op : string) :
  in_precedence op = true -> In op (map fst precedence).
Proof.
  unfold in_precedence, precedence. cbn [lookup map fst].
  repeat match goal with
         | |- context [String.eqb op ?k] =>
             destruct (String.eqb_spec op k) as [->|_]; [ simpl; tauto | ]
         end.
  discriminate.
Qed.

Lemma In_in_precedence (op : string) :
  In op (map fst precedence) -> in_precedence op = true.
Proof.
  simpl. intros H.
  repeat (destruct H as [<-|H]; [ reflexivity | ]). contradiction.
Qed.

Lemma in_precedence_not_paren (op : string) :
  in_precedence op = true -> not_open_paren op = true.
Proof.
  intros H. apply in_precedence_In in H. simpl in H.
  repeat (destruct H as [<-|H]; [ reflexivity | ]). contradiction.
Qed.

Lemma in_precedence_not_function (op : string) :
  in_precedence op = true -> member op functions = false.
Proof.
  intros H. apply in_precedence_In in H. simpl in H.
  repeat (destruct H as [<-|H]; [ reflexivity | ]). contradiction.
Qed.

Lemma constant_not_paren (c : string) :
  member c constants = true -> not_open_paren c = true.
Proof.
  intros H. apply member_In in H. simpl in H.
  repeat (destruct H as [<-|H]; [ reflexivity | ]). contradiction.
Qed.

Lemma quiet_le (level level' : nat) (ops : list string) :
  (level <= level')%nat -> quiet level ops = true -> quiet level' ops = true.
Proof.
  intros Hle. destruct ops as [|top ops]; [ reflexivity | ]. cbn [quiet].
  destruct (top =? "("); [ reflexivity | ]. cbn [orb].
  intros H. apply andb_true_iff in H as [-> H]. cbn [andb].
  apply Nat.ltb_lt in H. apply Nat.ltb_lt. lia.
Qed.

(** On a quiet stack the loop of an operator of that rank stops at
    once. *)
Lemma quiet_stop (op : string) (ops : list string) (vals : list value) :
  quiet (precedence_get op) ops = true ->
  apply_while (outranking op) ops vals = Ok (ops, vals).
Proof.
  destruct ops as [|top ops]; [ reflexivity | ]. cbn [quiet apply_while].
  unfold outranking. destruct (top =? "("); [ reflexivity | ]. cbn [orb negb].
  intros H. apply andb_true_iff in H as [-> H]. cbn [andb].
  apply Nat.ltb_lt in H.
  replace (precedence_get op <=? precedence_get top)%nat with false;
    [ reflexivity | ].
  symmetry. apply Nat.leb_gt. exact H.
Qed.

Lemma quiet_not_function (level : nat) (ops : list string) :
  quiet level ops = true ->
  top_is (fun top => member top functions) ops = false.
Proof.
  destruct ops as [|top ops]; [ reflexivity | ]. cbn [quiet top_is].
  destruct (String.eqb_spec top "(") as [->|_]; [ reflexivity | ].
  cbn [orb]. intros H. apply andb_true_iff in H as [H _].
  now apply in_precedence_not_function.
Qed.

Lemma step_pure_number (n : string) (st : stacks) :
  is_number n = true ->
  step_pure n st = Ok (fst st, VFloat (float_of_token n) :: snd st).
Proof.
  intros H. destruct st as [ops vals]. unfold step_pure, token_branch.
  now rewrite H.
Qed.

Lemma step_pure_name (c : string) (st : stacks) :
  In c (functions ++ constants) ->
  step_pure c st = Ok (c :: fst st, snd st).
Proof.
  destruct st as [ops vals]. simpl. intros H.
  repeat (destruct H as [<-|H]; [ reflexivity | ]). contradiction.
Qed.

Lemma step_pure_operator (op : string) (st : stacks) :
  In op (map fst precedence) ->
  step_pure op st
  = (st1 <- apply_while (outranking op) (fst st) (snd st) ;;
     Ok (op :: fst st1, snd st1)).
Proof.
  destruct st as [ops vals]. simpl. intros H.
  repeat (destruct H as [<-|H]; [ reflexivity | ]). contradiction.
Qed.

Lemma step_pure_close_paren (st : stacks) :
  step_pure ")" st
  = (st1 <- apply_while not_open_paren (fst st) (snd st) ;;
     if top_is (fun top => top =? "(") (fst st1) then
       if top_is (fun top => member top functions) (tl (fst st1))
       then apply_operator (tl (fst st1), snd st1)
       else Ok (tl (fst st1), snd st1)
     else Raise (ValueError "Mismatched parentheses")).
Proof.
  destruct st as [ops vals]. unfold step_pure.
  change (token_branch ")") with CloseParen. cbv iota. cbn [fst snd].
  destruct (apply_while not_open_paren ops vals) as [[ops1 vals1]|e];
    reflexivity.
Qed.

(** A function on top of the operand stack's first entry. *)
Lemma apply_top_call (f : string) (v : value) (vals : list value) :
  In f functions ->
  apply_top f (v :: vals) = (r <- call f v ;; Ok (r :: vals)).
Proof.
  simpl. intros H.
  repeat (destruct H as [<-|H];
          [ unfold call, apply_top, apply_operator; function_cases;
            reflexivity | ]).
  contradiction.
Qed.

(** The step of the close parenthesis of a group, once the group is
    scanned and its entries are applied. *)
Lemma close_group (p : string -> bool) (st1 : stacks) (ops : list string)
    (vals : list value) (r : result value) (k : value -> result stacks) :
  (st <- Ok st1 ;; apply_while not_open_paren (fst st) (snd st))
  = (v <- r ;; Ok ("(" :: ops, v :: vals)) ->
  (st <- step_pure ")" st1 ;; apply_while p (fst st) (snd st))
  = (v <- r ;;
     st <- (if top_is (fun top => member top functions) ops
            then apply_operator (ops, v :: vals)
            else Ok (ops, v :: vals)) ;;
     apply_while p (fst st) (snd st)).
Proof.
  cbn [bind]. intros H. rewrite step_pure_close_paren, H.
  destruct r as [v|e]; reflexivity.
Qed.

(** Scanning the tokens of an expression from a quiet stack, and then
    running a loop that applies the operators of the expression, amounts
    to pushing the value of the expression and then running the loop. *)
Lemma scan_by_precedence (e : expr) :
  forall last level p q ops vals,
    by_precedence last level e = true ->
    (q <= level)%nat ->
    (forall op, in_precedence op = true -> (q <= precedence_get op)%nat ->
                p op = true) ->
    (last = true -> forall c, member c constants = true -> p c = true) ->
    quiet level ops = true ->
    (st <- scan_pure (tokens_of e) (ops, vals) ;;
     apply_while p (fst st) (snd st))
    = (v <- value_of e ;; apply_while p ops (v :: vals)).
Proof.
  induction e as [n|c|e IH|f e IH|op l IHl r IHr];
    intros last level p q ops vals He Hq Hp Hc Hquiet;
    cbn [by_precedence tokens_of value_of] in *.
  - apply numeral_is_number in He.
    cbn [scan_pure]. rewrite step_pure_number by exact He. reflexivity.
  - apply andb_true_iff in He as [-> He]. specialize (Hc eq_refl c He).
    apply member_In in He. cbn [scan_pure].
    rewrite step_pure_name by (apply in_or_app; now right).
    cbn [bind fst snd apply_while]. rewrite Hc.
    now rewrite apply_top_constant.
  - cbn [scan_pure]. change (step_pure "(" (ops, vals))
      with (Ok ("(" :: ops, vals)). cbn [bind].
    rewrite scan_pure_app. cbn [scan_pure].
    specialize (IH true 0%nat not_open_paren 0%nat ("(" :: ops) vals He
                  (le_n 0) (fun op H _ => in_precedence_not_paren op H)
                  (fun _ c H => constant_not_paren c H) eq_refl).
    cbn [apply_while] in IH.
    change (not_open_paren "(") with false in IH. cbv iota in IH.
    destruct (scan_pure (tokens_of e) ("(" :: ops, vals)) as [st1|e1];
      cbn [bind] in *.
    + rewrite bind_assoc. cbn [bind].
      rewrite (close_group p st1 ops vals (value_of e) (fun _ => Ok st1) IH).
      rewrite (quiet_not_function level ops Hquiet).
      destruct (value_of e); reflexivity.
    + destruct (value_of e); [ discriminate | ]. cbn [bind] in *. exact IH.
  - apply andb_true_iff in He as [Hf He]. apply member_In in Hf.
    cbn [scan_pure].
    rewrite step_pure_name by (apply in_or_app; now left).
    cbn [bind fst snd].
    change (step_pure "(" (f :: ops, vals)) with (Ok ("(" :: f :: ops, vals)).
    cbn [bind]. rewrite scan_pure_app. cbn [scan_pure].
    specialize (IH true 0%nat not_open_paren 0%nat ("(" :: f :: ops) vals He
                  (le_n 0) (fun op H _ => in_precedence_not_paren op H)
                  (fun _ c H => constant_not_paren c H) eq_refl).
    cbn [apply_while] in IH.
    change (not_open_paren "(") with false in IH. cbv iota in IH.
    destruct (scan_pure (tokens_of e) ("(" :: f :: ops, vals)) as [st1|e1];
      cbn [bind] in *.
    + rewrite bind_assoc. cbn [bind].
      rewrite (close_group p st1 (f :: ops) vals (value_of e)
                 (fun _ => Ok st1) IH).
      cbn [top_is].
      replace (member f functions) with true
        by (symmetry; unfold member; apply existsb_exists; exists f;
            split; [ exact Hf | apply String.eqb_refl ]).
      destruct (value_of e) as [v|e2]; cbn [bind]; [ | reflexivity ].
      rewrite apply_operator_top, (apply_top_call f v vals Hf).
      destruct (call f v); reflexivity.
    + destruct (value_of e); [ discriminate | ]. cbn [bind] in *. exact IH.
  - apply andb_true_iff in He as [He Hr].
    apply andb_true_iff in He as [He Hl].
    apply andb_true_iff in He as [Hop Hlevel].
    apply Nat.leb_le in Hlevel.
    pose proof (in_precedence_In op Hop) as Hin.
    rewrite scan_pure_app. cbn [scan_pure].
    assert (Hquiet' : quiet (precedence_get op) ops = true)
      by (eapply quiet_le; [ exact Hlevel | exact Hquiet ]).
    specialize (IHl false (precedence_get op) (outranking op)
                  (precedence_get op) ops vals Hl (le_n _)).
    assert (IH1 := IHl
      (fun o Ho Hle =>
         ltac:(unfold outranking;
               pose proof (in_precedence_not_paren o Ho) as Hn;
               unfold not_open_paren in Hn; rewrite Hn, Ho;
               cbn [andb]; now apply Nat.leb_le))
      (fun H => ltac:(discriminate H)) Hquiet').
    clear IHl.
    destruct (value_of l) as [vl|el]; cbn [bind] in IH1 |- *.
    + rewrite quiet_stop in IH1 by exact Hquiet'.
      destruct (scan_pure (tokens_of l) (ops, vals)) as [st1|e1];
        cbn [bind] in IH1 |- *; [ | discriminate ].
      rewrite step_pure_operator by exact Hin. rewrite IH1. cbn [bind fst snd].
      rewrite (IHr last (S (precedence_get op)) p q (op :: ops) (vl :: vals)
                 Hr ltac:(lia) Hp Hc).
      2:{ cbn [quiet]. rewrite Hop. cbn [andb].
          replace (precedence_get op <? S (precedence_get op))%nat with true
            by (symmetry; apply Nat.ltb_lt; lia).
          apply orb_true_r. }
      destruct (value_of r) as [vr|er]; cbn [bind]; [ | reflexivity ].
      cbn [apply_while]. rewrite (Hp op Hop) by lia.
      rewrite apply_top_binary by exact Hin.
      destruct (binary op vl vr); reflexivity.
    + destruct (scan_pure (tokens_of l) (ops, vals)) as [st1|e1];
        cbn [bind] in IH1 |- *.
      * rewrite step_pure_operator by exact Hin. now rewrite IH1.
      * exact IH1.
Qed.


End Expressions.

(** ** The text of an expression *)





(** ** An operator before an expression *)

Section LeadingOperator.

Context {R : Runtime}.

Variable op : string.
Hypothesis op_operator : in_precedence op = true.

(** An expression of higher rank than [op] is scanned whole, and [op]
    then finds its value alone on the operand stack. *)
Lemma scan_after_operator_high (e : expr) (last : bool) (v : value)
    (p : string -> bool) (q : nat) :
  by_precedence last (S (precedence_get op)) e = true ->
  value_of e = Ok v ->
  (q <= precedence_get op)%nat ->
  (forall o, in_precedence o = true -> (q <= precedence_get o)%nat ->
             p o = true) ->
  (last = true -> forall c, member c constants = true -> p c = true) ->
  (st <- scan_pure (tokens_of e) ([op], []) ;;
   apply_while p (fst st) (snd st))
  = Raise (ValueError ("Not enough operands for operator: " ++ op)).
Proof.
  intros He Hv Hq Hp Hc.
  rewrite (scan_by_precedence e last (S (precedence_get op)) p q [op] []
             He ltac:(lia) Hp Hc).
  - rewrite Hv. cbn [bind apply_while]. rewrite (Hp op op_operator Hq).
    rewrite apply_top_one_operand by (now apply in_precedence_In).
    reflexivity.
  - cbn [quiet]. rewrite op_operator. cbn [andb].
    replace (precedence_get op <? S (precedence_get op))%nat with true
      by (symmetry; apply Nat.ltb_lt; lia).
    apply orb_true_r.
Qed.

Lemma scan_after_operator (e : expr) :
  forall last level v p q,
    by_precedence last level e = true ->
    value_of e = Ok v ->
    (q <= precedence_get op)%nat ->
    (forall o, in_precedence o = true -> (q <= precedence_get o)%nat ->
               p o = true) ->
    (last = true -> forall c, member c constants = true -> p c = true) ->
    (st <- scan_pure (tokens_of e) ([op], []) ;;
     apply_while p (fst st) (snd st))
    = Raise (ValueError ("Not enough operands for operator: " ++ op)).
Proof.
  induction e as [n|c|e IH|f e IH|o l IHl r IHr];
    intros last level v p q He Hv Hq Hp Hc;
    try (now apply (scan_after_operator_high _ last v p q)).
  destruct (Nat.ltb_spec (precedence_get op) (precedence_get o)) as [Hlt|Hge].
  - apply (scan_after_operator_high _ last v p q); try assumption.
    cbn [by_precedence] in *.
    apply andb_true_iff in He as [He Hr].
    apply andb_true_iff in He as [He Hl].
    apply andb_true_iff in He as [Ho _].
    rewrite Ho, Hl, Hr. cbn [andb].
    replace (S (precedence_get op) <=? precedence_get o)%nat with true;
      [ reflexivity | ].
    symmetry. apply Nat.leb_le. lia.
  - cbn [by_precedence tokens_of value_of] in *.
    apply andb_true_iff in He as [He Hr].
    apply andb_true_iff in He as [He Hl].
    apply andb_true_iff in He as [Ho _].
    destruct (value_of l) as [vl|el] eqn:Evl; [ | discriminate ].
    specialize (IHl false (precedence_get o) vl (outranking o)
                  (precedence_get o) Hl eq_refl Hge).
    assert (IH1 := IHl
      (fun o' Ho' Hle =>
         ltac:(unfold outranking;
               pose proof (in_precedence_not_paren o' Ho') as Hn;
               unfold not_open_paren in Hn; rewrite Hn, Ho';
               cbn [andb]; now apply Nat.leb_le))
      (fun H => ltac:(discriminate H))).
    clear IHl.
    rewrite scan_pure_app. cbn [scan_pure].
    destruct (scan_pure (tokens_of l) ([op], [])) as [st1|e1];
      cbn [bind] in IH1 |- *.
    + rewrite step_pure_operator by (now apply in_precedence_In).
      now rewrite IH1.
    + exact IH1.
Qed.

Lemma evaluate_pure_after_operator (e : expr) (v : value) :
  by_precedence true 0 e = true ->
  value_of e = Ok v ->
  evaluate_pure (op :: tokens_of e)
  = Raise (ValueError ("Not enough operands for operator: " ++ op)).
Proof.
  intros He Hv. unfold evaluate_pure. cbn [scan_pure].
  rewrite step_pure_operator by (now apply in_precedence_In).
  cbn [fst snd apply_while bind].
  pose proof (scan_after_operator e true 0%nat v any_entry 0%nat He Hv
                (Nat.le_0_l _) (fun _ _ _ => eq_refl)
                (fun _ _ _ => eq_refl)) as H.
  destruct (scan_pure (tokens_of e) ([op], [])) as [st|e1]; cbn [bind] in *.
  - now rewrite H.
  - injection H as ->. reflexivity.
Qed.

End LeadingOperator.

(** ** Counting operands *)

Section Counting.

Context {R : Runtime}.

Local Abbreviation entries := (Forall (fun op => stack_entry op = true)).

(** Operands on the stack, and operands that the pending entries will
    give or take. *)
Local Abbreviation balance ops vals :=
  (Z.of_nat (List.length vals) + operands_left ops)%Z.

Lemma apply_top_count (op : string) (vals vals' : list value) :
  stack_entry op = true ->
  apply_top op vals = Ok vals' ->
  Z.of_nat (List.length vals')
  = (Z.of_nat (List.length vals) + operand_count op)%Z.
Proof.
  intros He H. apply member_In in He.
  apply in_app_or in He as [Hf|He];
    [ | apply in_app_or in He as [Hc|He];
        [ | apply in_app_or in He as [Hp|Ho] ] ].
  - destruct (apply_top_function op vals vals' Hf H) as (v & r & kept & -> & ->).
    simpl in Hf.
    repeat (destruct Hf as [<-|Hf];
            [ change (operand_count _) with 0%Z; simpl List.length; lia | ]).
    contradiction.
  - rewrite (apply_top_constant op vals Hc) in H. injection H as <-.
    simpl in Hc.
    repeat (destruct Hc as [<-|Hc];
            [ change (operand_count _) with 1%Z; simpl List.length; lia | ]).
    contradiction.
  - destruct Hp as [<-|[]]. rewrite apply_top_open_paren in H.
    injection H as <-. change (operand_count "(") with 0%Z. lia.
  - destruct (apply_top_operator op vals vals' Ho H)
      as (r & l & v & kept & -> & -> & _).
    simpl in Ho.
    repeat (destruct Ho as [<-|Ho];
            [ change (operand_count _) with (-1)%Z; simpl List.length; lia | ]).
    contradiction.
Qed.

Lemma apply_while_count (p : string -> bool) :
  forall ops vals ops' vals',
    entries ops ->
    apply_while p ops vals = Ok (ops', vals') ->
    entries ops' /\ balance ops' vals' = balance ops vals.
Proof.
  induction ops as [|op ops IH]; intros vals ops' vals' He;
    cbn [apply_while].
  - intros [= <- <-]. split; [ constructor | reflexivity ].
  - destruct (p op).
    + destruct (apply_top op vals) as [vals1|e] eqn:E; cbn [bind];
        [ | discriminate ].
      inversion He as [|? ? Hop He']; subst.
      apply (apply_top_count op vals vals1 Hop) in E.
      intros H. apply IH in H as [H1 H2]; [ | exact He' ].
      split; [ exact H1 | ]. cbn [operands_left]. lia.
    + intros [= <- <-]. split; [ exact He | reflexivity ].
Qed.

Lemma apply_while_any (ops : list string) :
  forall vals ops' vals',
    apply_while any_entry ops vals = Ok (ops', vals') -> ops' = [].
Proof.
  induction ops as [|op ops IH]; intros vals ops' vals'; cbn [apply_while].
  - now intros [= <- <-].
  - unfold any_entry at 1.
    destruct (apply_top op vals) as [vals1|e]; cbn [bind]; [ | discriminate ].
    apply IH.
Qed.

Lemma step_pure_count (token : string) ops vals ops' vals' :
  (pushed token = true -> stack_entry token = true) ->
  entries ops ->
  step_pure token (ops, vals) = Ok (ops', vals') ->
  entries ops'
  /\ balance ops' vals' = (balance ops vals + operand_count token)%Z.
Proof.
  intros Hp He. unfold pushed in Hp. unfold step_pure.
  unfold token_branch in *.
  destruct (is_number token) eqn:En.
  { intros [= <- <-]. split; [ exact He | ].
    unfold operand_count. rewrite En. cbn [List.length]. lia. }
  destruct (member token (functions ++ constants)).
  { intros [= <- <-]. split; [ constructor; auto | ].
    cbn [operands_left]. lia. }
  destruct (String.eqb_spec token "(") as [->|_].
  { intros [= <- <-]. split; [ constructor; auto | ].
    cbn [operands_left]. lia. }
  destruct (String.eqb_spec token ")") as [->|_].
  { change (operand_count ")") with 0%Z.
    destruct (apply_while not_open_paren ops vals) as [[ops1 vals1]|e] eqn:E;
      cbn [bind]; [ | discriminate ].
    apply apply_while_count in E as [He1 Hb1]; [ | exact He ].
    destruct ops1 as [|top ops1]; cbn [top_is]; [ discriminate | ].
    destruct (String.eqb_spec top "(") as [->|_]; [ | discriminate ].
    cbn [tl]. inversion He1 as [|? ? _ He2]; subst.
    cbn [operands_left] in Hb1. change (operand_count "(") with 0%Z in Hb1.
    destruct ops1 as [|f ops1]; cbn [top_is].
    - intros [= <- <-]. split; [ constructor | ]. cbn [operands_left] in *. lia.
    - destruct (member f functions).
      + rewrite apply_operator_top.
        destruct (apply_top f vals1) as [vals2|e] eqn:Ef; cbn [bind];
          [ | discriminate ].
        intros [= <- <-]. inversion He2 as [|? ? Hf He3]; subst.
        apply (apply_top_count f vals1 vals2 Hf) in Ef.
        split; [ exact He3 | ]. cbn [operands_left] in *. lia.
      + intros [= <- <-]. split; [ exact He2 | ]. lia. }
  destruct (substring_of token "+-*/^%"); [ | discriminate ].
  destruct (apply_while (outranking token) ops vals)
    as [[ops1 vals1]|e] eqn:E; cbn [bind]; [ | discriminate ].
  apply apply_while_count in E as [He1 Hb1]; [ | exact He ].
  intros [= <- <-]. cbn [fst snd]. split; [ constructor; auto | ].
  cbn [operands_left]. lia.
Qed.

Lemma scan_pure_count (tokens : list string) :
  Forall (fun token => pushed token = true -> stack_entry token = true)
    tokens ->
  forall ops vals ops' vals',
    entries ops ->
    scan_pure tokens (ops, vals) = Ok (ops', vals') ->
    entries ops'
    /\ balance ops' vals' = (balance ops vals + operands_left tokens)%Z.
Proof.
  induction 1 as [|token tokens Hp _ IH]; intros ops vals ops' vals' He;
    cbn [scan_pure operands_left].
  - intros [= <- <-]. split; [ exact He | lia ].
  - destruct (step_pure token (ops, vals)) as [[ops1 vals1]|e] eqn:E;
      cbn [bind]; [ | discriminate ].
    apply (step_pure_count token ops vals ops1 vals1 Hp He) in E as [He1 Hb1].
    intros H. apply IH in H as [H1 H2]; [ | exact He1 ].
    split; [ exact H1 | lia ].
Qed.

(** A value needs one operand more than the operators take. *)
Lemma evaluate_pure_count (tokens : list string) (v : value) :
  Forall (fun token => pushed token = true -> stack_entry token = true)
    tokens ->
  evaluate_pure tokens = Ok v ->
  operands_left tokens = 1%Z.
Proof.
  intros Ht. unfold evaluate_pure.
  destruct (scan_pure tokens ([], [])) as [[ops vals]|e] eqn:E;
    cbn [bind fst snd]; [ | discriminate ].
  apply (scan_pure_count tokens Ht) in E as [He Hb]; [ | constructor ].
  destruct (apply_while any_entry ops vals) as [[ops1 vals1]|e] eqn:Ea;
    cbn [bind fst snd]; [ | discriminate ].
  pose proof (apply_while_any _ _ _ _ Ea) as ->.
  apply apply_while_count in Ea as [_ Hb1]; [ | exact He ].
  destruct vals1 as [|x [|? ?]]; try discriminate.
  intros _. cbn [operands_left List.length] in *. lia.
Qed.

Lemma tokenize_pushed (s : string) :
  Forall (fun token => pushed token = true -> stack_entry token = true)
    (tokenize s).
Proof. unfold tokenize. apply findall_lexemes. exact lexeme_pushed. Qed.

Lemma evaluate_count (s : string) (v : value) :
  evaluate s = Some (Ok v) -> operands_left (tokenize (lower s)) = 1%Z.
Proof.
  rewrite evaluate_spec. intros H. apply some_eq in H.
  exact (evaluate_pure_count _ v (tokenize_pushed _) H).
Qed.

End Counting.

(** * Precedence, association and operators in front *)

Section ClaimsOnExpressions.

Context {R : Runtime}.




End ClaimsOnExpressions.

(** ** C4: chains of [^] *)




(** ** C5: precedence *)




(** ** C10: an operator in front *)

(** C10 does not hold for every input that begins with a binary operator:
    here [-] finds the two operands it needs. *)
Lemma evaluate_leading_minus_returns :
  @evaluate test_runtime "-(1)(2)" = Some (Ok (VFloat (-1))).
Proof. reflexivity. Qed.

(** No token begins with a sign followed by more text, and an input that
    consists of a binary operator and one number after it fails for want
    of operands. *)
Lemma operator_and_number {R : Runtime} (s : string) :
  Forall unsigned (tokenize (lower s))
  /\ forall op n,
       tokenize (lower s) = [op; n] ->
       In op (map fst precedence) ->
       is_number n = true ->
       evaluate s
       = Some (Raise (ValueError ("Not enough operands for operator: " ++ op))).
Proof.
  split.
  - unfold tokenize. apply findall_lexemes. exact lexeme_unsigned.
  - intros op n Htokens Hop Hn. rewrite evaluate_tokens_of, Htokens.
    cbn [List.length]. unfold evaluate_tokens. run.
    now rewrite apply_top_one_operand.
Qed.

(** An operator in front takes one operand from the count. *)
Lemma tokenize_operator_first (op : ascii) (s : string) :
  In (String op "") (map fst precedence) ->
  tokenize (lower (String op s)) = String op "" :: tokenize (lower s)
  /\ operand_count (String op "") = (-1)%Z.
Proof.
  intros Hop. destruct (operator_symbol op Hop) as [Hs Hl].
  cbn [lower]. rewrite Hl. split; [ now apply tokenize_head_symbol | ].
  simpl in Hop.
  repeat (destruct Hop as [Hop|Hop]; [ injection Hop as <-; reflexivity | ]).
  contradiction.
Qed.

(** C10, as amended.  No token begins with a sign followed by more text, so
    there is no negative literal, and a binary operator in front of an
    expression does not negate it.  Whatever has a value on its own has
    none with a binary operator put before it: [evaluate] raises.  When
    what follows the operator is an expression that the precedence table
    reads, a single number included, the error is the one for want of
    operands, and it names the operator in front. *)
Theorem leading_operator_raises {R : Runtime} :
  (forall s, Forall unsigned (tokenize (lower s)))
  /\ (forall s op v,
        In (String op "") (map fst precedence) ->
        evaluate s = Some (Ok v) ->
        exists e, evaluate (String op s) = Some (Raise e))
  /\ (forall s op e v,
        in_precedence op = true ->
        by_precedence true 0 e = true ->
        value_of e = Ok v ->
        tokenize (lower s) = op :: tokens_of e ->
        evaluate s
        = Some (Raise (ValueError
                         ("Not enough operands for operator: " ++ op))))
  /\ (forall s op n,
        tokenize (lower s) = [op; n] ->
        In op (map fst precedence) ->
        is_number n = true ->
        evaluate s
        = Some (Raise (ValueError
                         ("Not enough operands for operator: " ++ op)))).
Proof.
  split; [ intros s; apply (operator_and_number s) | ].
  split; [ | split ].
  - intros s op v Hop Hv.
    destruct (tokenize_operator_first op s Hop) as [Ht Hc].
    apply evaluate_count in Hv.
    rewrite evaluate_spec.
    destruct (evaluate_pure (tokenize (lower (String op s))))
      as [v'|e] eqn:E; [ | now exists e ].
    exfalso. apply evaluate_pure_count in E; [ | apply tokenize_pushed ].
    rewrite Ht in E. cbn [operands_left] in E. lia.
  - intros s op e v Hop He Hv Ht. rewrite evaluate_spec, Ht. f_equal.
    now apply (evaluate_pure_after_operator op Hop e v).
  - intros s op n. apply (operator_and_number s).
Qed.

Lemma leading_operator_raises_witness :
  (exists e, @evaluate test_runtime "-5+3" = Some (Raise e))
  /\ @evaluate test_runtime "-(2+3)*4"
     = Some (Raise (ValueError "Not enough operands for operator: -"))
  /\ @evaluate test_runtime "-5"
     = Some (Raise (ValueError "Not enough operands for operator: -")).
Proof.
  destruct (@leading_operator_raises test_runtime) as (_ & H1 & H2 & H3).
  split; [ | split ].
  - exact (H1 "5+3" "-"%char (VFloat 8) (or_intror (or_introl eq_refl))
             eq_refl).
  - exact (H2 "-(2+3)*4" "-"
             (Bin "*" (Paren (Bin "+" (Num "2") (Num "3"))) (Num "4"))
             (VFloat 20) eq_refl eq_refl eq_refl eq_refl).
  - exact (H3 "-5" "-" "5" eq_refl (or_intror (or_introl eq_refl)) eq_refl).
Defined.
